(** * Channels_chat: the rendezvous resolver, the shutdown signal and the
      duplex message pumps of peerA/main.go and peerB/main.go.

    The two peers run the same code; they differ in the configuration
    constants and in the tag their line producer prepends ("A: " or "B: ").
    Go strings are byte sequences and are modelled as [string]; channels
    are FIFO queues; what the goroutines take from their surroundings (the
    outcome of a dial, the bytes on standard input, the case a [select]
    runs) is an explicit argument of the function that embeds them. *)

From Stdlib Require Import Bool Arith NArith ZArith List String Ascii Lia.
Import ListNotations.
Local Open Scope string_scope.
Local Open Scope list_scope.

(** ** Values of the Go runtime and of package [net] *)

(** A [net.Conn] interface value: [nil] or an established TCP connection. *)
Inductive Conn : Type :=
| nilConn
| tcpConn (id : nat).

(** A Go [error]: [None] is [nil]. *)
Definition error : Type := option string.

Definition is_nil (e : error) : bool :=
  match e with None => true | Some _ => false end.

Definition conn_is_nil (c : Conn) : bool :=
  match c with nilConn => true | tcpConn _ => false end.

(** [time.Duration] and [time.Time] in nanoseconds. *)
Definition Duration : Type := Z.
Definition Time : Type := Z.
Definition Millisecond : Duration := 1000000%Z.
Definition Second : Duration := 1000000000%Z.
Definition time_Add (t : Time) (d : Duration) : Time := (t + d)%Z.

(** ** Configuration constants *)

Record Config : Type := {
  localListenAddr : string;
  remoteDialAddr : string;
  peerTag : string
}.

Definition peerA : Config :=
  {| localListenAddr := "0.0.0.0:8080";
     remoteDialAddr := "127.0.0.1:8081";
     peerTag := "A: " |}.

Definition peerB : Config :=
  {| localListenAddr := "0.0.0.0:8081";
     remoteDialAddr := "127.0.0.1:8080";
     peerTag := "B: " |}.

Definition dialRetryEvery : Duration := (700 * Millisecond)%Z.
Definition connWriteTimeout : Duration := (5 * Second)%Z.

(** Capacity of [outgoing] and [incoming]: [make(chan string, 32)]. *)
Definition queueCap : nat := 32.

(** ** Buffered channels

    A buffered channel is its buffer, oldest value first.  [None] means
    the operation is not ready: a blocking send or receive waits, a
    [select] does not run that case. *)

Definition chan_send {A : Type} (cap : nat) (q : list A) (v : A)
  : option (list A) :=
  if (List.length q <? cap)%nat then Some (q ++ [v]) else None.

Definition chan_recv {A : Type} (q : list A) : option (A * list A) :=
  match q with
  | [] => None
  | v :: q' => Some (v, q')
  end.

(** ** The rendezvous resolver *)

Module Rendezvous.

(** What the resolver's surroundings decide: the outcome of the single
    [ln.Accept()] of [acceptOnce], the first polling iteration at which
    that call has come back ([None]: it never does), and the outcome of
    the [net.Dial] made in each polling iteration. *)
Record Env : Type := {
  accept_result : Conn * error;
  accept_ready : option nat;
  dial_result : nat -> Conn * error
}.

(** [acceptOnce]: the value it puts in [acceptCh], if any. *)
Definition acceptOnce (r : Conn * error) : option Conn :=
  let (conn, err) := r in
  if is_nil err then Some conn else None.

(** The content of the one-slot channel [acceptCh] seen by the [select]
    of polling iteration [i]. *)
Definition acceptCh (e : Env) (i : nat) : list Conn :=
  match accept_ready e with
  | Some k =>
      if (k <=? i)%nat then
        match acceptOnce (accept_result e) with
        | Some c => [c]
        | None => []
        end
      else []
  | None => []
  end.

Inductive Event : Type :=
| EvAccepted (c : Conn)                  (* case c := <-acceptCh *)
| EvSlotEmpty                            (* default: nothing to receive *)
| EvDial (remote : string) (ok : bool)   (* net.Dial("tcp", remote) *)
| EvSleep (d : Duration).                (* time.Sleep(dialRetryEvery) *)

(** [establishConn], started at polling iteration [i] and run for at most
    [fuel] iterations of its [for] loop.  The result is the trace of what
    it did and the connection it returned, [None] when the loop is still
    running after [fuel] iterations. *)
Fixpoint establishConn (fuel : nat) (e : Env) (i : nat) (remote : string)
  : list Event * option Conn :=
  match fuel with
  | O => ([], None)
  | S fuel' =>
      match chan_recv (acceptCh e i) with
      | Some (c, _) => ([EvAccepted c], Some c)
      | None =>
          let (c, err) := dial_result e i in
          if is_nil err then ([EvSlotEmpty; EvDial remote true], Some c)
          else
            let (tr, r) := establishConn fuel' e (S i) remote in
            (EvSlotEmpty :: EvDial remote false :: EvSleep dialRetryEvery
               :: tr, r)
      end
  end.

(** The branch [main] takes on the value of [establishConn]. *)
Inductive MainBranch : Type :=
| FailedToEstablish     (* conn == nil: prints the failure and returns *)
| Connected (c : Conn).

Definition main_after_establish (c : Conn) : MainBranch :=
  if conn_is_nil c then FailedToEstablish else Connected c.

(** The slot is found filled at iteration [i]. *)
Definition slot_filled (e : Env) (i : nat) : Prop :=
  acceptCh e i <> [].

(** The dial of iteration [i] succeeds. *)
Definition dial_ok (e : Env) (i : nat) : Prop :=
  snd (dial_result e i) = None.

Definition resolvable (e : Env) : Prop :=
  exists i, slot_filled e i \/ dial_ok e i.

(** The resolver returns [c]. *)
Definition returns (e : Env) (remote : string) (c : Conn) : Prop :=
  exists fuel, snd (establishConn fuel e 0 remote) = Some c.

(** One polling iteration that finds the slot empty and whose dial fails. *)
Definition failed_round (remote : string) : list Event :=
  [EvSlotEmpty; EvDial remote false; EvSleep dialRetryEvery].

Fixpoint failed_rounds (n : nat) (remote : string) : list Event :=
  match n with
  | O => []
  | S n' => failed_round remote ++ failed_rounds n' remote
  end.

(** The contract of package [net]: a call that reports no error returns
    a connection. *)
Definition net_contract (r : Conn * error) : Prop :=
  snd r = None -> fst r <> nilConn.

Definition env_contract (e : Env) : Prop :=
  net_contract (accept_result e) /\ forall i, net_contract (dial_result e i).

(** The iteration [i] finds the slot empty and its dial fails. *)
Definition round_fails (e : Env) (i : nat) : Prop :=
  acceptCh e i = [] /\ snd (dial_result e i) <> None.

(** An environment in which the first two dials are refused, the inbound
    connection 1 is in the slot from the third polling iteration on, and
    the third dial would succeed with connection 2. *)
Definition both_at_third : Env :=
  {| accept_result := (tcpConn 1, None);
     accept_ready := Some 2;
     dial_result := fun i =>
       if (i <? 2)%nat then (nilConn, Some "connection refused")
       else (tcpConn 2, None) |}.

(** An environment in which nobody ever connects and every dial is
    refused. *)
Definition nobody_there : Env :=
  {| accept_result := (nilConn, Some "use of closed network connection");
     accept_ready := None;
     dial_result := fun _ => (nilConn, Some "connection refused") |}.

End Rendezvous.

(** ** Go strings *)

Infix "+++" := String.append (right associativity, at level 60).

Definition byte (c : ascii) : N := N_of_ascii c.

Definition LF : ascii := "010"%char.
Definition CR : ascii := "013"%char.

(** [rev_onto s acc]: the bytes of [s] in reverse order, followed by [acc]. *)
Fixpoint rev_onto (s acc : string) : string :=
  match s with
  | EmptyString => acc
  | String c s' => rev_onto s' (String c acc)
  end.

Definition srev (s : string) : string := rev_onto s "".

(** [s[:n]] and [s[n:]], cut at the end of [s] when [n] is larger. *)
Fixpoint takeS (n : nat) (s : string) : string :=
  match n, s with
  | S n', String c s' => String c (takeS n' s')
  | _, _ => ""
  end.

Fixpoint dropS (n : nat) (s : string) : string :=
  match n, s with
  | S n', String _ s' => dropS n' s'
  | _, _ => s
  end.

Definition head_byte (s : string) : N :=
  match s with
  | EmptyString => 0%N
  | String c _ => byte c
  end.

Fixpoint last_char (s : string) : option ascii :=
  match s with
  | EmptyString => None
  | String c EmptyString => Some c
  | String _ s' => last_char s'
  end.

(** [c] occurs in [s]. *)
Fixpoint has_byte (c : ascii) (s : string) : bool :=
  match s with
  | EmptyString => false
  | String d s' => Ascii.eqb c d || has_byte c s'
  end.

(** [len(s)] as a binary number. *)
Fixpoint len_from (n : N) (s : string) : N :=
  match s with
  | EmptyString => n
  | String _ s' => len_from (N.succ n) s'
  end.

Definition len (s : string) : N := len_from 0 s.

Fixpoint str_repeat (c : ascii) (n : nat) : string :=
  match n with
  | O => ""
  | S n' => String c (str_repeat c n')
  end.

(** ** Package [unicode/utf8] *)

Module utf8.

Definition RuneError : N := 0xFFFD.
Definition RuneSelf : N := 0x80.

(** The table [first] with [acceptRanges]: for a leading byte, the size of
    the encoding and the range the second byte must lie in; [None] for
    the bytes that start no encoding of more than one byte. *)
Definition first (b : N) : option (nat * N * N) :=
  if (b <? 0xC2)%N then None
  else if (b <=? 0xDF)%N then Some (2%nat, 0x80, 0xBF)%N
  else if (b =? 0xE0)%N then Some (3%nat, 0xA0, 0xBF)%N
  else if (b <=? 0xEC)%N then Some (3%nat, 0x80, 0xBF)%N
  else if (b =? 0xED)%N then Some (3%nat, 0x80, 0x9F)%N
  else if (b <=? 0xEF)%N then Some (3%nat, 0x80, 0xBF)%N
  else if (b =? 0xF0)%N then Some (4%nat, 0x90, 0xBF)%N
  else if (b <=? 0xF3)%N then Some (4%nat, 0x80, 0xBF)%N
  else if (b =? 0xF4)%N then Some (4%nat, 0x80, 0x8F)%N
  else None.

Definition in_range (lo hi b : N) : bool := ((lo <=? b) && (b <=? hi))%N.

(** A continuation byte: between [locb] and [hicb]. *)
Definition is_cont (b : N) : bool := in_range 0x80 0xBF b.

Definition rune2 (b0 b1 : N) : N :=
  N.lor (N.shiftl (N.land b0 0x1F) 6) (N.land b1 0x3F).

Definition rune3 (b0 b1 b2 : N) : N :=
  N.lor (N.lor (N.shiftl (N.land b0 0x0F) 12) (N.shiftl (N.land b1 0x3F) 6))
        (N.land b2 0x3F).

Definition rune4 (b0 b1 b2 b3 : N) : N :=
  N.lor (N.lor (N.lor (N.shiftl (N.land b0 0x07) 18)
                      (N.shiftl (N.land b1 0x3F) 12))
               (N.shiftl (N.land b2 0x3F) 6))
        (N.land b3 0x3F).

(** [utf8.DecodeRuneInString]: the first rune of [s] and its width in
    bytes; [(RuneError, 1)] for an invalid encoding. *)
Definition DecodeRuneInString (s : string) : N * nat :=
  match s with
  | EmptyString => (RuneError, 0)
  | String c0 s0 =>
      let b0 := byte c0 in
      if (b0 <? RuneSelf)%N then (b0, 1)
      else
        match first b0 with
        | None => (RuneError, 1)
        | Some (sz, lo, hi) =>
            match s0 with
            | EmptyString => (RuneError, 1)
            | String c1 s1 =>
                let b1 := byte c1 in
                if negb (in_range lo hi b1) then (RuneError, 1)
                else if (sz <=? 2)%nat then (rune2 b0 b1, 2)
                else
                  match s1 with
                  | EmptyString => (RuneError, 1)
                  | String c2 s2 =>
                      let b2 := byte c2 in
                      if negb (is_cont b2) then (RuneError, 1)
                      else if (sz <=? 3)%nat then (rune3 b0 b1 b2, 3)
                      else
                        match s2 with
                        | EmptyString => (RuneError, 1)
                        | String c3 _ =>
                            let b3 := byte c3 in
                            if negb (is_cont b3) then (RuneError, 1)
                            else (rune4 b0 b1 b2 b3, 4)
                        end
                  end
            end
        end
  end.

(** [utf8.RuneStart]: not a continuation byte. *)
Definition RuneStart (b : N) : bool := negb (N.land b 0xC0 =? 0x80)%N.

(** [utf8.DecodeLastRuneInString] of a string given by its reverse [rp]:
    the last rune and its width.  The encoding is looked for among the
    last four bytes, from the nearest byte that can start a rune. *)
Definition decode_back (k : nat) (rp : string) : N * nat :=
  let (r, size) := DecodeRuneInString (srev (takeS k rp)) in
  if (size =? k)%nat then (r, size) else (RuneError, 1).

Definition DecodeLastRuneInString (rp : string) : N * nat :=
  match rp with
  | EmptyString => (RuneError, 0)
  | String c1 r1 =>
      if (byte c1 <? RuneSelf)%N then (byte c1, 1)
      else
        match r1 with
        | EmptyString => (RuneError, 1)
        | String c2 r2 =>
            if RuneStart (byte c2) then decode_back 2 rp
            else
              match r2 with
              | EmptyString => (RuneError, 1)
              | String c3 r3 =>
                  if RuneStart (byte c3) then decode_back 3 rp
                  else
                    match r3 with
                    | EmptyString => (RuneError, 1)
                    | String c4 _ =>
                        if RuneStart (byte c4) then decode_back 4 rp
                        else (RuneError, 1)
                    end
              end
        end
  end.

End utf8.

(** ** Package [unicode] *)

Module unicode.

Definition MaxLatin1 : N := 0xFF.

(** [unicode.IsSpace]: the Latin-1 spaces, then the table [White_Space]. *)
Definition IsSpace (r : N) : bool :=
  if (r <=? MaxLatin1)%N then
    ((r =? 0x09) || (r =? 0x0A) || (r =? 0x0B) || (r =? 0x0C) || (r =? 0x0D)
     || (r =? 0x20) || (r =? 0x85) || (r =? 0xA0))%N
  else
    ((r =? 0x1680) || utf8.in_range 0x2000 0x200A r
     || utf8.in_range 0x2028 0x2029 r || (r =? 0x202F) || (r =? 0x205F)
     || (r =? 0x3000))%N.

End unicode.

(** ** Package [strings] *)

Module strings.

(** [strings.TrimLeftFunc(s, unicode.IsSpace)]: [s] from its first rune
    that is not a space.  [skip] counts the bytes left of the rune being
    stepped over. *)
Fixpoint trimLeft (skip : nat) (s : string) : string :=
  match s with
  | EmptyString => ""
  | String _ s' =>
      match skip with
      | S k => trimLeft k s'
      | O =>
          let (r, size) := utf8.DecodeRuneInString s in
          if unicode.IsSpace r then trimLeft (size - 1) s' else s
      end
  end.

(** [strings.TrimRightFunc(s, unicode.IsSpace)] on the reverse [rp] of
    what is still to be looked at, [tl] being what was stepped over:
    [lastIndexFunc] finds the start [i] of the last rune that is not a
    space, and the result is [s[0:i+wid]], [wid] the width of the rune
    decoded forward at [i]. *)
Fixpoint trimRight (skip : nat) (rp tl : string) : string :=
  match rp with
  | EmptyString => ""
  | String c rp' =>
      match skip with
      | S k => trimRight k rp' (String c tl)
      | O =>
          let (r, size) := utf8.DecodeLastRuneInString rp in
          if unicode.IsSpace r then trimRight (size - 1) rp' (String c tl)
          else
            let from_i := rev_onto (takeS size rp) tl in
            let wid :=
              if (utf8.RuneSelf <=? head_byte from_i)%N
              then snd (utf8.DecodeRuneInString from_i)
              else 1%nat in
            rev_onto (dropS size rp) (takeS wid from_i)
      end
  end.

Definition TrimLeftSpace (s : string) : string := trimLeft 0 s.
Definition TrimRightSpace (s : string) : string := trimRight 0 (srev s) "".

(** [strings.TrimSpace]: leading and trailing white space removed, as
    defined by Unicode. *)
Definition TrimSpace (s : string) : string :=
  TrimRightSpace (TrimLeftSpace s).

End strings.

(** ** Package [bufio]: a [Scanner] with the split function [ScanLines] *)

Module bufio.

(** [bufio.MaxScanTokenSize]: the largest size of the buffer of a Scanner
    that was given none of its own. *)
Definition MaxScanTokenSize : N := 64 * 1024.

(** [dropCR]: a terminal carriage return is dropped. *)
Fixpoint dropCR (s : string) : string :=
  match s with
  | EmptyString => ""
  | String c s' =>
      match s' with
      | EmptyString => if Ascii.eqb c CR then "" else s
      | String _ _ => String c (dropCR s')
      end
  end.

(** The bytes read from the stream that belong to no token yet, newest
    first, and how many they are. *)
Record Scanner : Type := {
  buf_rev : string;
  buf_len : N
}.

Definition NewScanner : Scanner := {| buf_rev := ""; buf_len := 0 |}.

Inductive ByteStep : Type :=
| Buffered (sc : Scanner)               (* no token yet: more data is read *)
| Token (text : string) (sc : Scanner)  (* Scan returns true *)
| TooLong.                              (* ErrTooLong: Scan returns false *)

(** One more byte of the stream.  A newline ends the line held in the
    buffer; any other byte is buffered, unless that fills the buffer at
    its largest size with no newline in it. *)
Definition scan_byte (sc : Scanner) (c : ascii) : ByteStep :=
  if Ascii.eqb c LF then Token (dropCR (srev (buf_rev sc))) NewScanner
  else if (N.succ (buf_len sc) <? MaxScanTokenSize)%N then
    Buffered {| buf_rev := String c (buf_rev sc);
                buf_len := N.succ (buf_len sc) |}
  else TooLong.

(** The tokens of the successive calls of [Scan] that return true while
    the bytes [s] arrive, and the scanner after them: [None] when a call
    has returned false with [ErrTooLong]. *)
Fixpoint feed (sc : Scanner) (s : string) : list string * option Scanner :=
  match s with
  | EmptyString => ([], Some sc)
  | String c s' =>
      match scan_byte sc c with
      | Buffered sc' => feed sc' s'
      | Token t sc' => let (ts, r) := feed sc' s' in (t :: ts, r)
      | TooLong => ([], None)
      end
  end.

(** The scanner holds what it says it holds: a part of a line, shorter
    than the largest buffer. *)
Definition scanner_ok (sc : Scanner) : Prop :=
  buf_len sc = len (buf_rev sc)
  /\ (buf_len sc < MaxScanTokenSize)%N
  /\ has_byte LF (buf_rev sc) = false.

(** Why [Scan] returned false. *)
Inductive ScanEnd : Type :=
| EndOfStream     (* io.EOF or a read error *)
| ErrTooLong.

(** All the tokens a scanner in the state [sc] still gives on a stream
    that ends after the bytes [s]: at the end of the stream a last line
    that no newline ends is a token too. *)
Definition scan_from (sc : Scanner) (s : string) : list string * ScanEnd :=
  match feed sc s with
  | (ts, Some sc') =>
      if (buf_len sc' =? 0)%N then (ts, EndOfStream)
      else (ts ++ [dropCR (srev (buf_rev sc'))], EndOfStream)
  | (ts, None) => (ts, ErrTooLong)
  end.

Definition scan_all (s : string) : list string * ScanEnd :=
  scan_from NewScanner s.

(** One call of [Scan] on a stream of which the bytes [avail] have
    arrived, [eof] telling whether the stream has ended after them. *)
Inductive ScanResult : Type :=
| ScanToken (text : string) (sc : Scanner) (rest : string)
| ScanFalse
| ScanBlocks (sc : Scanner).     (* waits for more bytes *)

Fixpoint Scan (sc : Scanner) (avail : string) (eof : bool) : ScanResult :=
  match avail with
  | EmptyString =>
      if eof then
        if (buf_len sc =? 0)%N then ScanFalse
        else ScanToken (dropCR (srev (buf_rev sc))) NewScanner ""
      else ScanBlocks sc
  | String c rest =>
      match scan_byte sc c with
      | Buffered sc' => Scan sc' rest eof
      | Token t sc' => ScanToken t sc' rest
      | TooLong => ScanFalse
      end
  end.

End bufio.

(** ** The shutdown signal *)

(** [done]: an unbuffered [chan struct{}] nothing is ever sent on; all it
    can be is open or closed. *)
Inductive doneChan : Type :=
| DoneOpen
| DoneClosed.

Inductive outcome (A : Type) : Type :=
| Ok (a : A)
| Panic (msg : string).

Arguments Ok {A} a.
Arguments Panic {A} msg.

(** A receive from [done] is ready when, and only when, it is closed. *)
Definition done_ready (d : doneChan) : bool :=
  match d with
  | DoneClosed => true
  | DoneOpen => false
  end.

(** The builtin [close]. *)
Definition close_chan (d : doneChan) : outcome doneChan :=
  match d with
  | DoneOpen => Ok DoneClosed
  | DoneClosed => Panic "close of closed channel"
  end.

(** [closeDone], run with no other goroutine in between its two steps. *)
Definition closeDone (d : doneChan) : outcome doneChan :=
  if done_ready d then Ok d      (* case <-done: already closed *)
  else close_chan d.             (* default: close(done) *)

(** What the other goroutine that raises the signal does to [done]
    during a call of [closeDone]. *)
Inductive Interference : Type :=
| NoOther               (* it leaves done alone during the call *)
| ClosesBeforeSelect    (* it has closed done when the select runs *)
| ClosesBetween.        (* it closes done between the select and the close *)

(** [closeDone] on a [done] that was last seen as [d], with the other
    goroutine doing [other]: the [select] and the [close] are two channel
    operations, and each finds [done] as it is when it runs. *)
Definition closeDone_among (other : Interference) (d : doneChan)
  : outcome doneChan :=
  let at_select :=
    match other with ClosesBeforeSelect => DoneClosed | _ => d end in
  if done_ready at_select then Ok at_select     (* case <-done *)
  else                                          (* default: close(done) *)
    match other with
    | ClosesBetween => close_chan DoneClosed
    | _ => close_chan at_select
    end.

(** [closeDone] called by [connWriter] and by [connReader], which run
    concurrently.  The [select] and the [close] are two channel
    operations; the other goroutine can run between them. *)
Module Shutdown.

Inductive Raiser : Type := Writer | Reader.

Inductive Pc : Type :=
| AtSelect      (* about to run the select *)
| AtClose       (* took the default case, about to run close(done) *)
| Returned
| Panicked.

Record Race : Type := {
  done : doneChan;
  writer_pc : Pc;
  reader_pc : Pc
}.

Definition pc_of (who : Raiser) (st : Race) : Pc :=
  match who with
  | Writer => writer_pc st
  | Reader => reader_pc st
  end.

Definition set_pc (who : Raiser) (pc : Pc) (d : doneChan) (st : Race)
  : Race :=
  match who with
  | Writer => {| done := d; writer_pc := pc; reader_pc := reader_pc st |}
  | Reader => {| done := d; writer_pc := writer_pc st; reader_pc := pc |}
  end.

(** The next channel operation of [who]. *)
Definition race_step (who : Raiser) (st : Race) : Race :=
  match pc_of who st with
  | AtSelect =>
      if done_ready (done st) then set_pc who Returned (done st) st
      else set_pc who AtClose (done st) st
  | AtClose =>
      match close_chan (done st) with
      | Ok d' => set_pc who Returned d' st
      | Panic _ => set_pc who Panicked (done st) st
      end
  | Returned => st
  | Panicked => st
  end.

Fixpoint race (schedule : list Raiser) (st : Race) : Race :=
  match schedule with
  | [] => st
  | who :: rest => race rest (race_step who st)
  end.

(** Both goroutines are about to call [closeDone]. *)
Definition both_calling (d : doneChan) : Race :=
  {| done := d; writer_pc := AtSelect; reader_pc := AtSelect |}.

Definition panicked (st : Race) : bool :=
  match writer_pc st, reader_pc st with
  | Panicked, _ => true
  | _, Panicked => true
  | _, _ => false
  end.

(** The schedule in which [connReader] does [other] to the call of
    [connWriter]. *)
Definition schedule_of (other : Interference) : list Raiser :=
  match other with
  | NoOther => [Writer; Writer]
  | ClosesBeforeSelect => [Reader; Reader; Writer; Writer]
  | ClosesBetween => [Writer; Reader; Reader; Writer]
  end.

End Shutdown.

(** ** The pumps *)

Module Pumps.

Import strings.

(** What a goroutine does to what it shares with the others. *)
Inductive Effect : Type :=
| SendOutgoing (msg : string)        (* outgoing <- msg *)
| SendIncoming (msg : string)        (* incoming <- msg *)
| CloseDone                          (* closeDone(done) *)
| SetWriteDeadline (t : Time)        (* conn.SetWriteDeadline(t) *)
| WriteString (s : string)           (* w.WriteString(s) *)
| Flush                              (* w.Flush() *)
| Println (s : string).              (* fmt.Println(s) *)

Inductive Status : Type :=
| Running
| Returned
| Panicked.

(** The marker [connReader] puts before a received line. *)
Definition recvMarker : string := "RECV -> ".

(** *** [stdinReader] *)

Inductive ProducerExit : Type :=
| SawShutdown      (* case <-done: return *)
| InputEnded.      (* !sc.Scan(): return *)

(** The loop of [stdinReader] over the tokens [toks] its Scanner yields;
    [done_at i] is the state of [done] when the [select] of iteration [i]
    runs.  The result is what it sends, in order, and why it returned. *)
Fixpoint stdinReader_loop (cfg : Config) (done_at : nat -> doneChan)
    (i : nat) (toks : list string) : list Effect * ProducerExit :=
  if done_ready (done_at i) then ([], SawShutdown)
  else
    match toks with
    | [] => ([], InputEnded)
    | tok :: toks' =>
        let line := TrimSpace tok in
        if String.eqb line "" then stdinReader_loop cfg done_at (S i) toks'
        else
          let (effs, ex) := stdinReader_loop cfg done_at (S i) toks' in
          (SendOutgoing (peerTag cfg +++ line) :: effs, ex)
    end.

(** [stdinReader] on a standard input that holds the bytes [stdin] and
    then ends. *)
Definition stdinReader (cfg : Config) (done_at : nat -> doneChan)
    (stdin : string) : list Effect * ProducerExit :=
  stdinReader_loop cfg done_at 0 (fst (bufio.scan_all stdin)).

(** The messages sent for the tokens [toks]: each token trimmed, those
    that are empty left out, the tag before the others. *)
Definition forwarded (cfg : Config) (toks : list string) : list string :=
  map (fun line => peerTag cfg +++ line)
      (filter (fun line => negb (String.eqb line ""))
              (map TrimSpace toks)).

Definition sent_outgoing (effs : list Effect) : list string :=
  flat_map (fun e => match e with SendOutgoing m => [m] | _ => [] end) effs.

(** [stdinReader] step by step, with the places where it waits. *)
Inductive ProducerPc : Type :=
| AtTop                      (* select { case <-done: return; default: } *)
| InScan                     (* sc.Scan() *)
| InSend (msg : string)      (* outgoing <- tag + line *)
| ProducerReturned.

Record Producer : Type := {
  pr_pc : ProducerPc;
  pr_scanner : bufio.Scanner;
  pr_stdin : string;         (* typed and not read yet *)
  pr_stdin_eof : bool;
  pr_done : doneChan;
  pr_outgoing : list string
}.

Definition producer_at (pc : ProducerPc) (sc : bufio.Scanner)
    (stdin : string) (q : list string) (p : Producer) : Producer :=
  {| pr_pc := pc; pr_scanner := sc; pr_stdin := stdin;
     pr_stdin_eof := pr_stdin_eof p; pr_done := pr_done p;
     pr_outgoing := q |}.

Definition producer_with_done (d : doneChan) (p : Producer) : Producer :=
  {| pr_pc := pr_pc p; pr_scanner := pr_scanner p; pr_stdin := pr_stdin p;
     pr_stdin_eof := pr_stdin_eof p; pr_done := d;
     pr_outgoing := pr_outgoing p |}.

(** The next step of [stdinReader]; [None] when it waits or has
    returned. *)
Definition producer_step (cfg : Config) (p : Producer) : option Producer :=
  match pr_pc p with
  | AtTop =>
      if done_ready (pr_done p)
      then Some (producer_at ProducerReturned (pr_scanner p) (pr_stdin p)
                             (pr_outgoing p) p)
      else Some (producer_at InScan (pr_scanner p) (pr_stdin p)
                             (pr_outgoing p) p)
  | InScan =>
      match bufio.Scan (pr_scanner p) (pr_stdin p) (pr_stdin_eof p) with
      | bufio.ScanBlocks _ => None
      | bufio.ScanFalse =>
          Some (producer_at ProducerReturned (pr_scanner p) (pr_stdin p)
                            (pr_outgoing p) p)
      | bufio.ScanToken tok sc rest =>
          let line := TrimSpace tok in
          if String.eqb line ""
          then Some (producer_at AtTop sc rest (pr_outgoing p) p)
          else Some (producer_at (InSend (peerTag cfg +++ line)) sc rest
                                 (pr_outgoing p) p)
      end
  | InSend msg =>
      match chan_send queueCap (pr_outgoing p) msg with
      | Some q => Some (producer_at AtTop (pr_scanner p) (pr_stdin p) q p)
      | None => None
      end
  | ProducerReturned => None
  end.

(** [n] steps; [None] when one of them is not possible. *)
Fixpoint producer_steps (cfg : Config) (n : nat) (p : Producer)
  : option Producer :=
  match n with
  | O => Some p
  | S n' =>
      match producer_step cfg p with
      | Some p' => producer_steps cfg n' p'
      | None => None
      end
  end.

(** The shutdown signal is raised while [stdinReader] waits for a line
    nobody types. *)
Definition waiting_for_input : Producer :=
  {| pr_pc := InScan; pr_scanner := bufio.NewScanner; pr_stdin := "";
     pr_stdin_eof := false; pr_done := DoneClosed; pr_outgoing := [] |}.

(** The shutdown signal is raised while [stdinReader] waits for room in
    a full [outgoing], which [connWriter], returned, no longer empties. *)
Definition waiting_for_room : Producer :=
  {| pr_pc := InSend "A: late"; pr_scanner := bufio.NewScanner;
     pr_stdin := ""; pr_stdin_eof := false; pr_done := DoneClosed;
     pr_outgoing := repeat "A: queued" queueCap |}.

(** [stdinReader] step by step for at most [fuel] steps, another
    goroutine taking from [outgoing] what it sends as soon as it is
    sent: what it sent, in order, and where it is at the end. *)
Fixpoint producer_sends (fuel : nat) (cfg : Config) (p : Producer)
  : list string * ProducerPc :=
  match fuel with
  | O => ([], pr_pc p)
  | S fuel' =>
      match producer_step cfg p with
      | None => ([], pr_pc p)
      | Some p' =>
          let (sent, pc) :=
            producer_sends fuel' cfg
              (producer_at (pr_pc p') (pr_scanner p') (pr_stdin p') [] p') in
          (pr_outgoing p' ++ sent, pc)
      end
  end.

(** [stdinReader] about to start on a standard input that holds the
    bytes [stdin] and then ends, with no shutdown raised. *)
Definition producer_start (sc : bufio.Scanner) (stdin : string) : Producer :=
  {| pr_pc := AtTop; pr_scanner := sc; pr_stdin := stdin;
     pr_stdin_eof := true; pr_done := DoneOpen; pr_outgoing := [] |}.

(** How far a Scanner is from the end of its stream. *)
Definition scan_left (sc : bufio.Scanner) (avail : string) : nat :=
  String.length avail + (if (bufio.buf_len sc =? 0)%N then 0 else 1).

(** *** [connWriter] *)

(** The case a [select] runs.  A case that is not ready is not run. *)
Inductive SelectCase : Type :=
| CaseDone       (* case <-done *)
| CaseMsg.       (* case msg := <-outgoing, case msg := <-incoming *)

(** What one iteration of [connWriter] takes from its surroundings. *)
Record WriterInput : Type := {
  wi_case : SelectCase;
  wi_now : Time;             (* time.Now() *)
  wi_write_err : error;      (* of w.WriteString *)
  wi_flush_err : error;      (* of w.Flush *)
  wi_other : Interference    (* what connReader does to a closeDone *)
}.

Record Writer : Type := {
  ws_status : Status;
  ws_done : doneChan;
  ws_outgoing : list string;
  ws_trace : list Effect     (* what it has done, oldest first *)
}.

(** [closeDone(done); return], with [connReader] doing [other] to
    [done] meanwhile: the call returns, or it panics on a [done] that
    [connReader] has closed after its [select]. *)
Definition writer_fail (other : Interference) (q : list string)
    (tr : list Effect) (d : doneChan) : Writer :=
  match closeDone_among other d with
  | Ok d' =>
      {| ws_status := Returned; ws_done := d'; ws_outgoing := q;
         ws_trace := tr ++ [CloseDone] |}
  | Panic _ =>
      {| ws_status := Panicked; ws_done := DoneClosed; ws_outgoing := q;
         ws_trace := tr ++ [CloseDone] |}
  end.

(** What is written for [msg]. *)
Definition frame (msg : string) : string := msg +++ String LF "".

(** One iteration of the loop of [connWriter]; [None] when the case is
    not ready or [connWriter] has returned. *)
Definition connWriter_iter (i : WriterInput) (w : Writer) : option Writer :=
  match ws_status w with
  | Running =>
      match wi_case i with
      | CaseDone =>
          if done_ready (ws_done w)
          then Some {| ws_status := Returned; ws_done := ws_done w;
                       ws_outgoing := ws_outgoing w;
                       ws_trace := ws_trace w |}
          else None
      | CaseMsg =>
          match chan_recv (ws_outgoing w) with
          | None => None
          | Some (msg, q) =>
              let tr := ws_trace w
                        ++ [SetWriteDeadline
                              (time_Add (wi_now i) connWriteTimeout);
                            WriteString (frame msg)] in
              if negb (is_nil (wi_write_err i))
              then Some (writer_fail (wi_other i) q tr (ws_done w))
              else
                let tr' := tr ++ [Flush] in
                if negb (is_nil (wi_flush_err i))
                then Some (writer_fail (wi_other i) q tr' (ws_done w))
                else Some {| ws_status := Running; ws_done := ws_done w;
                             ws_outgoing := q; ws_trace := tr' |}
          end
      end
  | Returned => None
  | Panicked => None
  end.

(** The iterations [connWriter] makes on the inputs [ins], as far as they
    go: an input whose case is not ready is passed over. *)
Fixpoint connWriter (ins : list WriterInput) (w : Writer) : Writer :=
  match ins with
  | [] => w
  | i :: rest =>
      match connWriter_iter i w with
      | Some w' => connWriter rest w'
      | None => connWriter rest w
      end
  end.

(** The bytes handed to the connection: those of every [WriteString] of
    the trace, in order. *)
Fixpoint written (tr : list Effect) : string :=
  match tr with
  | [] => ""
  | WriteString s :: rest => s +++ written rest
  | _ :: rest => written rest
  end.

Definition write_failed (i : WriterInput) : bool :=
  negb (is_nil (wi_write_err i)) || negb (is_nil (wi_flush_err i)).

(** An input on which a message is taken and written with no error. *)
Definition good_write (t : Time) : WriterInput :=
  {| wi_case := CaseMsg; wi_now := t;
     wi_write_err := None; wi_flush_err := None; wi_other := NoOther |}.

(** An input on which the [select] runs the case of the shutdown
    signal. *)
Definition done_case : WriterInput :=
  {| wi_case := CaseDone; wi_now := 0%Z;
     wi_write_err := None; wi_flush_err := None; wi_other := NoOther |}.

(** *** [connReader] *)

(** How a goroutine ends on [closeDone(done)] as its last statement,
    [done] last seen as [d] and the other raiser doing [other]: it
    returns, or it panics in the [close]. *)
Definition ends_on_closeDone (other : Interference) (d : doneChan) : Status :=
  match closeDone_among other d with
  | Ok _ => Returned
  | Panic _ => Panicked
  end.

(** [connReader] on a connection on which the bytes [received] arrive; if
    [ended], the stream then ends (the peer closed it, or a read fails),
    otherwise the connection stays open and [Scan] waits.  When its loop
    ends it calls [closeDone] on a [done] last seen as [d], [connWriter]
    doing [other] to it meanwhile.  The result is what it does and how
    it stands. *)
Definition connReader (received : string) (ended : bool)
    (d : doneChan) (other : Interference) : list Effect * Status :=
  match bufio.feed bufio.NewScanner received with
  | (toks, None) =>
      (map (fun t => SendIncoming (recvMarker +++ t)) toks ++ [CloseDone],
       ends_on_closeDone other d)
  | (toks, Some _) =>
      if ended
      then (map (fun t => SendIncoming (recvMarker +++ t))
                (fst (bufio.scan_all received)) ++ [CloseDone],
            ends_on_closeDone other d)
      else (map (fun t => SendIncoming (recvMarker +++ t)) toks, Running)
  end.

Definition sent_incoming (effs : list Effect) : list string :=
  flat_map (fun e => match e with SendIncoming m => [m] | _ => [] end) effs.

(** *** The session loop of [main] *)

Record Session : Type := {
  ss_status : Status;
  ss_done : doneChan;
  ss_incoming : list string;
  ss_console : list string
}.

Definition main_iter (c : SelectCase) (s : Session) : option Session :=
  match ss_status s with
  | Running =>
      match c with
      | CaseMsg =>
          match chan_recv (ss_incoming s) with
          | Some (msg, q) =>
              Some {| ss_status := Running; ss_done := ss_done s;
                      ss_incoming := q;
                      ss_console := ss_console s ++ [msg] |}
          | None => None
          end
      | CaseDone =>
          if done_ready (ss_done s)
          then Some {| ss_status := Returned; ss_done := ss_done s;
                       ss_incoming := ss_incoming s;
                       ss_console :=
                         ss_console s ++ ["Connection closed. Bye."] |}
          else None
      end
  | Returned => None
  | Panicked => None
  end.

(** *** From the keyboard of one peer to the queue of the other *)

(** [outgoing <- msg] by the producer, then one iteration of [connWriter]
    that takes a message and writes it with no error. *)
Definition push_then_write (w : Writer) (msg : string) : Writer :=
  match chan_send queueCap (ws_outgoing w) msg with
  | Some q =>
      connWriter [good_write 0%Z]
        {| ws_status := ws_status w; ws_done := ws_done w;
           ws_outgoing := q; ws_trace := ws_trace w |}
  | None => w
  end.

Definition new_writer : Writer :=
  {| ws_status := Running; ws_done := DoneOpen; ws_outgoing := [];
     ws_trace := [] |}.

(** What the [connReader] of the other peer sends to its [incoming] when
    the user of [sender] types [stdin], every write succeeds, nothing is
    lost on the way and no shutdown is raised at the sender. *)
Definition typed_to_incoming (sender : Config) (stdin : string)
  : list string :=
  let msgs :=
    sent_outgoing (fst (stdinReader sender (fun _ => DoneOpen) stdin)) in
  let w := fold_left push_then_write msgs new_writer in
  sent_incoming
    (fst (connReader (written (ws_trace w)) false DoneOpen NoOther)).

End Pumps.

(** ** One direction of a session, goroutine by goroutine

    The producer of one peer pushes the lines [to_push] onto its
    [outgoing]; its [connWriter] takes them and writes them; the bytes
    travel, in order and without loss, to the Scanner of the [connReader]
    of the other peer, which sends each line it scans to [incoming]; the
    session loop there takes them.  No write fails and no shutdown is
    raised at the sender. *)

Module Pipeline.

Import Pumps.

Record State : Type := {
  to_push : list string;                (* not pushed yet *)
  outgoing : list string;               (* the sender's queue *)
  wire : string;                        (* written, not read yet *)
  rd_scanner : option bufio.Scanner;    (* None: Scan has returned false *)
  rd_token : option string;             (* scanned, not sent yet *)
  incoming : list string;               (* the receiver's queue *)
  shown : list string                   (* taken by the session loop *)
}.

Inductive Action : Type :=
| Push       (* producer: outgoing <- line *)
| Write      (* connWriter: msg := <-outgoing, WriteString, Flush *)
| NetByte    (* the receiver's Scanner reads one more byte *)
| Enqueue    (* connReader: incoming <- "RECV -> " + sc.Text() *)
| Show.      (* session loop: msg := <-incoming *)

Definition step (a : Action) (s : State) : option State :=
  match a with
  | Push =>
      match to_push s with
      | [] => None
      | l :: rest =>
          match chan_send queueCap (outgoing s) l with
          | Some q =>
              Some {| to_push := rest; outgoing := q; wire := wire s;
                      rd_scanner := rd_scanner s; rd_token := rd_token s;
                      incoming := incoming s; shown := shown s |}
          | None => None
          end
      end
  | Write =>
      match chan_recv (outgoing s) with
      | Some (msg, q) =>
          Some {| to_push := to_push s; outgoing := q;
                  wire := wire s +++ frame msg;
                  rd_scanner := rd_scanner s; rd_token := rd_token s;
                  incoming := incoming s; shown := shown s |}
      | None => None
      end
  | NetByte =>
      match rd_token s, rd_scanner s, wire s with
      | None, Some sc, String c rest =>
          match bufio.scan_byte sc c with
          | bufio.Buffered sc' =>
              Some {| to_push := to_push s; outgoing := outgoing s;
                      wire := rest; rd_scanner := Some sc';
                      rd_token := None;
                      incoming := incoming s; shown := shown s |}
          | bufio.Token t sc' =>
              Some {| to_push := to_push s; outgoing := outgoing s;
                      wire := rest; rd_scanner := Some sc';
                      rd_token := Some t;
                      incoming := incoming s; shown := shown s |}
          | bufio.TooLong =>
              Some {| to_push := to_push s; outgoing := outgoing s;
                      wire := rest; rd_scanner := None;
                      rd_token := None;
                      incoming := incoming s; shown := shown s |}
          end
      | _, _, _ => None
      end
  | Enqueue =>
      match rd_token s with
      | Some t =>
          match chan_send queueCap (incoming s) (recvMarker +++ t) with
          | Some q =>
              Some {| to_push := to_push s; outgoing := outgoing s;
                      wire := wire s; rd_scanner := rd_scanner s;
                      rd_token := None;
                      incoming := q; shown := shown s |}
          | None => None
          end
      | None => None
      end
  | Show =>
      match chan_recv (incoming s) with
      | Some (msg, q) =>
          Some {| to_push := to_push s; outgoing := outgoing s;
                  wire := wire s; rd_scanner := rd_scanner s;
                  rd_token := rd_token s;
                  incoming := q; shown := shown s ++ [msg] |}
      | None => None
      end
  end.

(** The goroutines run in the order [schedule]; one that cannot move
    when its turn comes waits. *)
Fixpoint run (schedule : list Action) (s : State) : State :=
  match schedule with
  | [] => s
  | a :: rest =>
      match step a s with
      | Some s' => run rest s'
      | None => run rest s
      end
  end.

Definition init (lines : list string) : State :=
  {| to_push := lines; outgoing := []; wire := "";
     rd_scanner := Some bufio.NewScanner; rd_token := None;
     incoming := []; shown := [] |}.

(** Everything sent to [incoming] so far, in the order it was sent. *)
Definition delivered (s : State) : list string := shown s ++ incoming s.

(** The receiver has raised no shutdown. *)
Definition no_shutdown (s : State) : Prop := rd_scanner s <> None.

(** A line: no newline in it. *)
Definition no_newline (l : string) : Prop := has_byte LF l = false.

(** A line that fits the buffer of a Scanner. *)
Definition is_line (l : string) : Prop :=
  no_newline l /\ (len l < bufio.MaxScanTokenSize)%N.

(** The line the receiver enqueues for the line [l] of the sender. *)
Definition received_as (l : string) : string :=
  recvMarker +++ bufio.dropCR l.

(** The lines [ls] as [connWriter] writes them, one after the other. *)
Fixpoint frames (ls : list string) : string :=
  match ls with
  | [] => ""
  | l :: rest => frame l +++ frames rest
  end.

(** The bytes the receiver's Scanner has still to read: those on the
    wire, then those of the lines that are not written yet. *)
Definition to_read (s : State) : string :=
  wire s +++ frames (outgoing s ++ to_push s).

Definition held (s : State) : list string :=
  match rd_token s with
  | Some t => [recvMarker +++ t]
  | None => []
  end.

(** What holds of every state the goroutines can reach from [init lines]
    when every line fits: the Scanner reads what is left without a
    failure, and what was sent to [incoming], what [connReader] holds
    and what the Scanner will still give make up, in this order, the
    lines as they are to be received. *)
Definition invariant (lines : list string) (s : State) : Prop :=
  exists sc toks sc',
    rd_scanner s = Some sc
    /\ bufio.feed sc (to_read s) = (toks, Some sc')
    /\ map received_as lines
       = delivered s ++ held s ++ map (String.append recvMarker) toks.

(** The Scanner is bound to fail on what it has still to read. *)
Definition doomed (s : State) : Prop :=
  exists sc, rd_scanner s = Some sc /\ snd (bufio.feed sc (to_read s)) = None.

(** Nothing is on its way any more. *)
Definition drained (s : State) : Prop :=
  to_push s = [] /\ outgoing s = [] /\ wire s = "" /\ rd_token s = None.

(** The steps the goroutines can still make are at most so many. *)
Definition weight (k : nat) (ls : list string) : nat :=
  fold_right (fun l n => 3 * String.length l + k + n) 0 ls.

Definition steps_left (s : State) : nat :=
  weight 5 (to_push s) + weight 4 (outgoing s) + 3 * String.length (wire s)
  + match rd_token s with Some _ => 2 | None => 0 end
  + List.length (incoming s).

End Pipeline.

(** ** What the rendezvous costs *)

Module ResolverTrace.

Import Rendezvous.

(** The time [establishConn] has spent in [time.Sleep]. *)
Fixpoint slept (tr : list Event) : Duration :=
  match tr with
  | [] => 0%Z
  | EvSleep d :: rest => (d + slept rest)%Z
  | _ :: rest => slept rest
  end.

(** The calls of [net.Dial] it has made. *)
Fixpoint dials (tr : list Event) : nat :=
  match tr with
  | [] => 0
  | EvDial _ _ :: rest => S (dials rest)
  | _ :: rest => dials rest
  end.

(** What the round [k] returns when it succeeds: what is in the slot, or
    else what the dial gives. *)
Definition round_result (e : Env) (k : nat) : Conn :=
  match acceptCh e k with
  | c :: _ => c
  | [] => fst (dial_result e k)
  end.

(** Two peers whose first dials both succeed while neither has yet seen
    the connection the other one dialled. *)
Definition dials_first (cA : Conn) (late : nat) (cB : Conn) : Env :=
  {| accept_result := (cB, None);
     accept_ready := Some (S late);
     dial_result := fun _ => (cA, None) |}.

(** [ln.Accept] fails at once; the dials are refused until the round
    [n], whose dial gives the connection 7. *)
Definition accept_fails (n : nat) : Env :=
  {| accept_result := (nilConn, Some "use of closed network connection");
     accept_ready := Some 0;
     dial_result := fun i =>
       if (i <? n)%nat then (nilConn, Some "connection refused")
       else (tcpConn 7, None) |}.

End ResolverTrace.

(** ** The session loop and the pumps, run after run *)

Module Runs.

Import Pumps.

(** The iterations the session loop of [main] makes when its [select]
    runs the cases [cases]: a case that is not ready is passed over. *)
Fixpoint session_run (cases : list SelectCase) (s : Session) : Session :=
  match cases with
  | [] => s
  | c :: rest =>
      match main_iter c s with
      | Some s' => session_run rest s'
      | None => session_run rest s
      end
  end.

Definition closing_notice : string := "Connection closed. Bye.".

(** The calls of [closeDone] in a trace. *)
Fixpoint close_calls (tr : list Effect) : nat :=
  match tr with
  | [] => 0
  | CloseDone :: rest => S (close_calls rest)
  | _ :: rest => close_calls rest
  end.

(** [connWriter] about to start on a queue that holds [msgs]. *)
Definition writer_on (msgs : list string) : Writer :=
  {| ws_status := Running; ws_done := DoneOpen; ws_outgoing := msgs;
     ws_trace := [] |}.

(** What [connReader] does with the lines [msgs] once they are received. *)
Definition reader_effects (msgs : list string) (ended : bool)
    (d : doneChan) (other : Interference) : list Effect * Status :=
  (map (fun l => SendIncoming (Pipeline.received_as l)) msgs
     ++ (if ended then [CloseDone] else []),
   if ended then ends_on_closeDone other d else Running).

End Runs.

(** ** The two raisers, whatever the schedule *)

Module RaceStates.

Import Shutdown.

(** The states two concurrent calls of [closeDone] on an open [done] can
    be in. *)
Definition from_open (st : Race) : bool :=
  match done st, writer_pc st, reader_pc st with
  | DoneOpen, AtSelect, AtSelect => true
  | DoneOpen, AtClose, AtSelect => true
  | DoneOpen, AtSelect, AtClose => true
  | DoneOpen, AtClose, AtClose => true
  | DoneClosed, Returned, AtSelect => true
  | DoneClosed, Returned, AtClose => true
  | DoneClosed, Returned, Returned => true
  | DoneClosed, Returned, Panicked => true
  | DoneClosed, AtSelect, Returned => true
  | DoneClosed, AtClose, Returned => true
  | DoneClosed, Panicked, Returned => true
  | _, _, _ => false
  end.

(** The states they can be in when [done] is closed, or when one call
    has finished, before the other one runs its [select]. *)
Definition from_closed (st : Race) : bool :=
  match done st, writer_pc st, reader_pc st with
  | DoneClosed, (AtSelect | Returned), (AtSelect | Returned) => true
  | _, _, _ => false
  end.

End RaceStates.

(** ** A line that does not fit *)

Module Truncation.

Import Pumps Pipeline.

(** What holds of every state the goroutines reach from the lines
    [good], that fit, followed by one that does not: until [Scan] fails
    the Scanner is bound to fail, and what it will still give are lines
    of [good]; once it has failed, all of [good] has been sent to
    [incoming] and [connReader] holds nothing. *)
Definition truncated (good : list string) (s : State) : Prop :=
  match rd_scanner s with
  | Some sc =>
      exists toks,
        bufio.feed sc (to_read s) = (toks, None)
        /\ map received_as good
           = delivered s ++ held s ++ map (String.append recvMarker) toks
  | None =>
      rd_token s = None /\ delivered s = map received_as good
  end.

End Truncation.

(** * Properties *)

(** ** Go strings *)

Module StringFacts.

Lemma append_nil_r (s : string) : s +++ "" = s.
Proof. induction s as [|c s IH]; simpl; [|rewrite IH]; reflexivity. Qed.

Lemma append_assoc (a b c : string) : (a +++ b) +++ c = a +++ b +++ c.
Proof. induction a as [|x a IH]; simpl; [|rewrite IH]; reflexivity. Qed.

Lemma rev_onto_append (s acc : string) : rev_onto s acc = srev s +++ acc.
Proof.
  unfold srev. revert acc. induction s as [|c s IH]; intros acc; simpl.
  - reflexivity.
  - rewrite (IH (String c acc)), (IH (String c "")).
    rewrite append_assoc. reflexivity.
Qed.

Lemma srev_cons (c : ascii) (s : string) :
  srev (String c s) = srev s +++ String c "".
Proof. unfold srev at 1. simpl. apply rev_onto_append. Qed.

Lemma srev_snoc (s : string) (c : ascii) :
  srev (s +++ String c "") = String c (srev s).
Proof.
  induction s as [|d s IH]; simpl.
  - reflexivity.
  - rewrite !srev_cons, IH. reflexivity.
Qed.

Lemma srev_append (a b : string) : srev (a +++ b) = srev b +++ srev a.
Proof.
  induction a as [|c a IH]; simpl.
  - rewrite append_nil_r. reflexivity.
  - rewrite !srev_cons, IH, append_assoc. reflexivity.
Qed.

Lemma srev_involutive (s : string) : srev (srev s) = s.
Proof.
  induction s as [|c s IH]; simpl.
  - reflexivity.
  - rewrite srev_cons, srev_snoc, IH. reflexivity.
Qed.

Lemma has_byte_append (c : ascii) (a b : string) :
  has_byte c (a +++ b) = has_byte c a || has_byte c b.
Proof.
  induction a as [|x a IH]; simpl.
  - reflexivity.
  - rewrite IH. apply orb_assoc.
Qed.

Lemma has_byte_srev (c : ascii) (s : string) :
  has_byte c (srev s) = has_byte c s.
Proof.
  induction s as [|x s IH]; simpl.
  - reflexivity.
  - rewrite srev_cons, has_byte_append, IH. simpl.
    rewrite orb_false_r. apply orb_comm.
Qed.

Lemma has_byte_rev_onto (c : ascii) (a b : string) :
  has_byte c (rev_onto a b) = has_byte c a || has_byte c b.
Proof. rewrite rev_onto_append, has_byte_append, has_byte_srev. reflexivity. Qed.

Lemma has_byte_takeS (c : ascii) (n : nat) (s : string) :
  has_byte c (takeS n s) = true -> has_byte c s = true.
Proof.
  revert s. induction n as [|n IH]; intros [|x s]; simpl; try discriminate.
  intros H. apply orb_true_iff in H. apply orb_true_iff.
  destruct H as [H | H]; [left; exact H | right; apply IH, H].
Qed.

Lemma has_byte_dropS (c : ascii) (n : nat) (s : string) :
  has_byte c (dropS n s) = true -> has_byte c s = true.
Proof.
  revert s. induction n as [|n IH]; intros [|x s]; simpl; try tauto.
  intros H. apply orb_true_iff. right. apply IH, H.
Qed.

Lemma len_from_add (n : N) (s : string) : len_from n s = (n + len s)%N.
Proof.
  unfold len. revert n. induction s as [|c s IH]; intros n; cbn [len_from].
  - lia.
  - rewrite (IH (N.succ n)), (IH (N.succ 0)). lia.
Qed.

Lemma len_cons (c : ascii) (s : string) : len (String c s) = N.succ (len s).
Proof. unfold len at 1. simpl. rewrite len_from_add. lia. Qed.

Lemma len_append (a b : string) : len (a +++ b) = (len a + len b)%N.
Proof.
  induction a as [|c a IH]; simpl.
  - reflexivity.
  - rewrite !len_cons, IH. lia.
Qed.

Lemma len_srev (s : string) : len (srev s) = len s.
Proof.
  induction s as [|c s IH].
  - reflexivity.
  - rewrite srev_cons, len_append, IH, !len_cons. change (len "") with 0%N. lia.
Qed.

Lemma len_str_repeat (c : ascii) (n : nat) :
  len (str_repeat c n) = N.of_nat n.
Proof.
  induction n as [|n IH].
  - reflexivity.
  - cbn [str_repeat]. rewrite len_cons, IH. lia.
Qed.

Lemma len_zero (s : string) : len s = 0%N -> s = "".
Proof.
  destruct s as [|c s]; [reflexivity|]. rewrite len_cons. lia.
Qed.

Lemma last_char_append_cons (a : string) (c : ascii) (b : string) :
  last_char (a +++ String c b) = last_char (String c b).
Proof.
  induction a as [|x a IH].
  - reflexivity.
  - change ((String x a) +++ String c b) with (String x (a +++ String c b)).
    destruct (a +++ String c b) as [|y t] eqn:E.
    + destruct a; discriminate E.
    + cbn [last_char]. cbn [last_char] in IH. exact IH.
Qed.

Lemma last_char_none (s : string) : last_char s = None -> s = "".
Proof.
  induction s as [|c s IH]; [reflexivity|].
  destruct s as [|d s]; [discriminate|].
  intros H. cbn [last_char] in H. specialize (IH H). discriminate IH.
Qed.

Lemma last_char_cons_some (c : ascii) (s : string) :
  exists d, last_char (String c s) = Some d.
Proof.
  destruct (last_char (String c s)) as [d|] eqn:E.
  - exists d. reflexivity.
  - apply last_char_none in E. discriminate E.
Qed.

Lemma last_char_append (a b : string) :
  b <> "" -> last_char (a +++ b) = last_char b.
Proof.
  destruct b as [|c b]; [congruence|]. intros _.
  apply last_char_append_cons.
Qed.

Lemma eqb_CR (c : ascii) : Ascii.eqb c CR = false <-> c <> CR.
Proof.
  destruct (Ascii.eqb_spec c CR); split; congruence.
Qed.

End StringFacts.

(** ** Package [bufio] *)

Module BufioFacts.

Import StringFacts bufio.

Lemma dropCR_no_CR (s : string) : last_char s <> Some CR -> dropCR s = s.
Proof.
  induction s as [|c s IH]; [reflexivity|].
  destruct s as [|d s].
  - simpl. intros H. destruct (Ascii.eqb_spec c CR); [congruence|reflexivity].
  - intros H. change (dropCR (String c (String d s)))
      with (String c (dropCR (String d s))).
    rewrite IH; [reflexivity|]. exact H.
Qed.

Lemma has_byte_dropCR (c : ascii) (s : string) :
  has_byte c (dropCR s) = true -> has_byte c s = true.
Proof.
  induction s as [|x s IH]; [tauto|].
  destruct s as [|d s].
  - simpl. destruct (Ascii.eqb x CR); simpl; [discriminate | tauto].
  - change (dropCR (String x (String d s)))
      with (String x (dropCR (String d s))).
    cbn [has_byte] in *. intros H. apply orb_true_iff in H.
    apply orb_true_iff. destruct H as [H | H]; [left; exact H|].
    right. apply IH. exact H.
Qed.

Lemma len_dropCR (s : string) : (len (dropCR s) <= len s)%N.
Proof.
  induction s as [|x s IH]; [reflexivity|].
  destruct s as [|d s].
  - simpl. destruct (Ascii.eqb x CR); [|reflexivity].
    rewrite len_cons. change (len "") with 0%N. lia.
  - change (dropCR (String x (String d s)))
      with (String x (dropCR (String d s))).
    rewrite (len_cons x (String d s)), (len_cons x). lia.
Qed.

Lemma NewScanner_ok : scanner_ok NewScanner.
Proof. repeat split. Qed.

(** Bytes of a line that fits are buffered. *)
Lemma feed_line_part (l rest : string) (sc : Scanner) :
  has_byte LF l = false ->
  (buf_len sc + len l < MaxScanTokenSize)%N ->
  feed sc (l +++ rest)
  = feed {| buf_rev := rev_onto l (buf_rev sc);
            buf_len := (buf_len sc + len l)%N |} rest.
Proof.
  revert sc. induction l as [|c l IH]; intros sc Hnl Hlen.
  - simpl. change (len "") with 0%N. rewrite N.add_0_r.
    destruct sc; reflexivity.
  - cbn [has_byte] in Hnl. apply orb_false_iff in Hnl. destruct Hnl as [Hc Hnl].
    rewrite len_cons in Hlen.
    change (String c l +++ rest) with (String c (l +++ rest)).
    cbn [feed]. unfold scan_byte.
    rewrite Ascii.eqb_sym in Hc. rewrite Hc.
    replace (N.succ (buf_len sc) <? MaxScanTokenSize)%N with true
      by (symmetry; apply N.ltb_lt; lia).
    rewrite IH by (first [exact Hnl | cbn [buf_len]; lia]).
    cbn [buf_rev buf_len rev_onto]. rewrite len_cons.
    f_equal. f_equal. lia.
Qed.

(** A line that fits, and the newline after it, give one token. *)
Lemma feed_line (l rest : string) (sc : Scanner) :
  has_byte LF l = false ->
  (buf_len sc + len l < MaxScanTokenSize)%N ->
  feed sc (l +++ String LF rest)
  = (dropCR (srev (buf_rev sc) +++ l) :: fst (feed NewScanner rest),
     snd (feed NewScanner rest)).
Proof.
  intros Hnl Hlen. rewrite feed_line_part by assumption.
  cbn [feed]. unfold scan_byte. rewrite Ascii.eqb_refl. cbn [buf_rev].
  destruct (feed NewScanner rest) as [ts r]. cbn [fst snd].
  f_equal. f_equal. f_equal.
  rewrite rev_onto_append, srev_append, srev_involutive. reflexivity.
Qed.

(** A line that does not fit makes [Scan] return false. *)
Lemma feed_too_long (l rest : string) :
  has_byte LF l = false ->
  (MaxScanTokenSize <= len l)%N ->
  feed NewScanner (l +++ rest) = ([], None).
Proof.
  assert (H : forall sc, (buf_len sc < MaxScanTokenSize)%N ->
            has_byte LF l = false ->
            (MaxScanTokenSize <= buf_len sc + len l)%N ->
            feed sc (l +++ rest) = ([], None)).
  { induction l as [|c l IH]; intros sc Hsc Hnl Hlen.
    - change (len "") with 0%N in Hlen. lia.
    - cbn [has_byte] in Hnl. apply orb_false_iff in Hnl.
      destruct Hnl as [Hc Hnl]. rewrite len_cons in Hlen.
      change (String c l +++ rest) with (String c (l +++ rest)).
      cbn [feed]. unfold scan_byte. rewrite Ascii.eqb_sym in Hc. rewrite Hc.
      destruct (N.succ (buf_len sc) <? MaxScanTokenSize)%N eqn:E.
      + apply N.ltb_lt in E. apply IH; cbn [buf_len]; [exact E|exact Hnl|lia].
      + reflexivity. }
  intros Hnl Hlen. apply H; [reflexivity | exact Hnl | simpl; lia].
Qed.

End BufioFacts.

(** ** Packages [unicode/utf8] and [strings] *)

Module TrimFacts.

Import StringFacts utf8 unicode strings.

Lemma first_lo (b : N) (sz : nat) (lo hi : N) :
  first b = Some (sz, lo, hi) -> (0x80 <= lo)%N.
Proof.
  unfold first.
  repeat match goal with
         | |- context [if ?c then _ else _] => destruct c
         end; intros H; inversion H; subst; lia.
Qed.

Lemma in_range_lo (lo hi b : N) : in_range lo hi b = true -> (lo <= b)%N.
Proof.
  unfold in_range. intros H. apply andb_true_iff in H.
  destruct H as [H _]. apply N.leb_le, H.
Qed.

(** The width of a rune is at least one byte, and its last byte is not
    an ASCII byte when its first is not. *)
Lemma DecodeRune_last (c : ascii) (s : string) :
  (RuneSelf <= byte c)%N ->
  exists d, last_char (takeS (snd (DecodeRuneInString (String c s))) (String c s))
            = Some d /\ (0x80 <= byte d)%N.
Proof.
  intros Hc. unfold DecodeRuneInString.
  replace (byte c <? RuneSelf)%N with false
    by (symmetry; apply N.ltb_ge; exact Hc).
  destruct (first (byte c)) as [[[sz lo] hi]|] eqn:Hf;
    [|exists c; split; [reflexivity | exact Hc]].
  pose proof (first_lo _ _ _ _ Hf) as Hlo.
  destruct s as [|c1 s1]; [exists c; split; [reflexivity | exact Hc]|].
  destruct (in_range lo hi (byte c1)) eqn:H1; cbn [negb];
    [|exists c; split; [reflexivity | exact Hc]].
  apply in_range_lo in H1.
  destruct (sz <=? 2)%nat; [exists c1; split; [reflexivity | lia]|].
  destruct s1 as [|c2 s2]; [exists c; split; [reflexivity | exact Hc]|].
  destruct (is_cont (byte c2)) eqn:H2; cbn [negb];
    [|exists c; split; [reflexivity | exact Hc]].
  apply in_range_lo in H2.
  destruct (sz <=? 3)%nat; [exists c2; split; [reflexivity | lia]|].
  destruct s2 as [|c3 s3]; [exists c; split; [reflexivity | exact Hc]|].
  destruct (is_cont (byte c3)) eqn:H3; cbn [negb];
    [|exists c; split; [reflexivity | exact Hc]].
  apply in_range_lo in H3.
  exists c3; split; [reflexivity | lia].
Qed.

(** A rune of more than one byte does not start with an ASCII byte. *)
Lemma DecodeRune_wide (s : string) (r : N) (w : nat) :
  DecodeRuneInString s = (r, w) -> 2 <= w -> (RuneSelf <= head_byte s)%N.
Proof.
  destruct s as [|c s]; simpl.
  - intros H; inversion H; lia.
  - destruct (byte c <? RuneSelf)%N eqn:E.
    + intros H; inversion H; lia.
    + intros _ _. apply N.ltb_ge, E.
Qed.

Lemma decode_back_cases (k : nat) (rp : string) (r : N) (size : nat) :
  decode_back k rp = (r, size) ->
  (size = k /\ DecodeRuneInString (srev (takeS k rp)) = (r, k))
  \/ (r, size) = (RuneError, 1).
Proof.
  unfold decode_back.
  destruct (DecodeRuneInString (srev (takeS k rp))) as [r' size'].
  destruct (Nat.eqb_spec size' k) as [->|Hne]; intros H.
  - left. inversion H; subst. split; reflexivity.
  - right. symmetry. exact H.
Qed.

(** What [DecodeLastRuneInString] finds when the rune it steps over
    starts with an ASCII byte: that byte. *)
Lemma DecodeLastRune_ascii (c : ascii) (rp tl : string) (r : N) (size : nat) :
  DecodeLastRuneInString (String c rp) = (r, size) ->
  1 <= size
  /\ ((head_byte (rev_onto (takeS size (String c rp)) tl) < RuneSelf)%N ->
      r = head_byte (rev_onto (takeS size (String c rp)) tl)).
Proof.
  assert (Herr : (byte c <? RuneSelf)%N = false ->
                 (r, size) = (RuneError, 1) ->
                 1 <= size
                 /\ ((head_byte (rev_onto (takeS size (String c rp)) tl)
                      < RuneSelf)%N ->
                     r = head_byte (rev_onto (takeS size (String c rp)) tl))).
  { intros E H. inversion H; subst. split; [lia|].
    cbn. intros Hlt. apply N.ltb_ge in E. lia. }
  assert (Hback : forall k, 2 <= k ->
            (byte c <? RuneSelf)%N = false ->
            decode_back k (String c rp) = (r, size) ->
            1 <= size
            /\ ((head_byte (rev_onto (takeS size (String c rp)) tl)
                 < RuneSelf)%N ->
                r = head_byte (rev_onto (takeS size (String c rp)) tl))).
  { intros k Hk E H. apply decode_back_cases in H.
    destruct H as [[-> Hdec] | H]; [|apply Herr; assumption].
    split; [lia|]. intros Hlt. exfalso.
    apply DecodeRune_wide in Hdec; [|exact Hk].
    rewrite rev_onto_append in Hlt.
    destruct (srev (takeS k (String c rp))) as [|x t] eqn:Es.
    - cbn in Hdec. unfold RuneSelf in Hdec. lia.
    - cbn in Hlt, Hdec. lia. }
  unfold DecodeLastRuneInString.
  destruct (byte c <? RuneSelf)%N eqn:E.
  - intros H. inversion H; subst. split; [lia|]. intros _. reflexivity.
  - destruct rp as [|c2 r2];
      [intros H; apply Herr; [reflexivity | congruence]|].
    destruct (RuneStart (byte c2)); [apply Hback; [lia | reflexivity]|].
    destruct r2 as [|c3 r3];
      [intros H; apply Herr; [reflexivity | congruence]|].
    destruct (RuneStart (byte c3)); [apply Hback; [lia | reflexivity]|].
    destruct r3 as [|c4 r4];
      [intros H; apply Herr; [reflexivity | congruence]|].
    destruct (RuneStart (byte c4)); [apply Hback; [lia | reflexivity]|].
    intros H; apply Herr; [reflexivity | congruence].
Qed.

Lemma IsSpace_CR : IsSpace (byte CR) = true.
Proof. reflexivity. Qed.

Lemma byte_CR_ascii (d : ascii) : (0x80 <= byte d)%N -> d <> CR.
Proof. intros H ->. cbv in H. apply H. reflexivity. Qed.

(** [trimLeft] gives a part of its argument. *)
Lemma has_byte_trimLeft (c : ascii) (s : string) (skip : nat) :
  has_byte c (trimLeft skip s) = true -> has_byte c s = true.
Proof.
  revert skip. induction s as [|x s IH]; intros skip; [tauto|].
  cbn [trimLeft]. destruct skip as [|k].
  - destruct (DecodeRuneInString (String x s)) as [r size].
    destruct (IsSpace r); [|tauto].
    intros H. cbn [has_byte]. apply orb_true_iff. right. exact (IH _ H).
  - intros H. cbn [has_byte]. apply orb_true_iff. right. exact (IH _ H).
Qed.

Lemma len_trimLeft (s : string) (skip : nat) :
  (len (trimLeft skip s) <= len s)%N.
Proof.
  revert skip. induction s as [|x s IH]; intros skip; [reflexivity|].
  cbn [trimLeft]. rewrite len_cons. destruct skip as [|k].
  - destruct (DecodeRuneInString (String x s)) as [r size].
    destruct (IsSpace r).
    + specialize (IH (size - 1)). lia.
    + rewrite len_cons. lia.
  - specialize (IH k). lia.
Qed.

(** [trimRight] gives a part of what it is given. *)
Lemma has_byte_trimRight (c : ascii) (rp tl : string) (skip : nat) :
  has_byte c (trimRight skip rp tl) = true ->
  has_byte c rp = true \/ has_byte c tl = true.
Proof.
  revert skip tl. induction rp as [|x rp IH]; intros skip tl; [discriminate|].
  assert (Hrec : forall k, has_byte c (trimRight k rp (String x tl)) = true ->
            has_byte c (String x rp) = true \/ has_byte c tl = true).
  { intros k H. destruct (IH _ _ H) as [H' | H'].
    - left. cbn [has_byte]. rewrite H'. apply orb_true_r.
    - cbn [has_byte] in *. apply orb_true_iff in H'.
      destruct H' as [H' | H']; [left; rewrite H'; reflexivity | right; exact H']. }
  cbn [trimRight]. destruct skip as [|k]; [|apply Hrec].
  destruct (DecodeLastRuneInString (String x rp)) as [r size].
  destruct (IsSpace r); [apply Hrec|].
  intros H. rewrite has_byte_rev_onto in H. apply orb_true_iff in H.
  destruct H as [H | H].
  - left. exact (has_byte_dropS _ _ _ H).
  - apply has_byte_takeS in H. rewrite has_byte_rev_onto in H.
    apply orb_true_iff in H. destruct H as [H | H]; [left | right; exact H].
    exact (has_byte_takeS _ _ _ H).
Qed.

(** What [trimRight] gives does not end with a carriage return. *)
Lemma trimRight_no_CR (rp tl : string) (skip : nat) :
  last_char (trimRight skip rp tl) <> Some CR.
Proof.
  revert skip tl. induction rp as [|x rp IH]; intros skip tl; [discriminate|].
  cbn [trimRight]. destruct skip as [|k]; [|apply IH].
  destruct (DecodeLastRuneInString (String x rp)) as [r size] eqn:Hd.
  destruct (IsSpace r) eqn:Hsp; [apply IH|].
  destruct (DecodeLastRune_ascii x rp tl r size Hd) as [Hsize Hascii].
  assert (Hne : exists y t,
            rev_onto (takeS size (String x rp)) tl = String y t).
  { rewrite rev_onto_append. clear Hascii Hd.
    destruct size as [|size']; [lia|]. cbn [takeS]. rewrite srev_cons.
    destruct (srev (takeS size' rp)) as [|y t]; cbn; eauto. }
  destruct Hne as [y [t Hfrom]]. rewrite Hfrom in *. cbn [head_byte] in *.
  rewrite rev_onto_append.
  destruct (RuneSelf <=? byte y)%N eqn:Ey.
  - apply N.leb_le in Ey.
    destruct (DecodeRune_last y t Ey) as [d [Hlast Hd80]].
    rewrite last_char_append.
    + rewrite Hlast. intros H. inversion H. subst d.
      exact (byte_CR_ascii _ Hd80 eq_refl).
    + intros Hempty. rewrite Hempty in Hlast. discriminate Hlast.
  - apply N.leb_gt in Ey. specialize (Hascii Ey). subst r.
    cbn [takeS]. rewrite last_char_append by discriminate.
    cbn [last_char]. intros H. inversion H. subst y.
    rewrite IsSpace_CR in Hsp. discriminate Hsp.
Qed.

Lemma len_takeS (n : nat) (s : string) : (len (takeS n s) <= len s)%N.
Proof.
  revert s. induction n as [|n IH]; intros [|c s]; cbn [takeS];
    try (change (len "") with 0%N; lia).
  rewrite !len_cons. specialize (IH s). lia.
Qed.

Lemma takeS_dropS (n : nat) (s : string) : takeS n s +++ dropS n s = s.
Proof.
  revert s. induction n as [|n IH]; intros [|c s]; cbn; try reflexivity.
  rewrite IH. reflexivity.
Qed.

Lemma len_trimRight (rp tl : string) (skip : nat) :
  (len (trimRight skip rp tl) <= len rp + len tl)%N.
Proof.
  revert skip tl. induction rp as [|x rp IH]; intros skip tl;
    [cbn [trimRight]; change (len "") with 0%N; lia|].
  assert (Hrec : forall k,
            (len (trimRight k rp (String x tl)) <= len (String x rp) + len tl)%N).
  { intros k. specialize (IH k (String x tl)). rewrite !len_cons in *. lia. }
  cbn [trimRight]. destruct skip as [|k]; [|apply Hrec].
  destruct (DecodeLastRuneInString (String x rp)) as [r size].
  destruct (IsSpace r); [apply Hrec|].
  rewrite rev_onto_append, len_append, len_srev.
  match goal with
  | |- context [takeS ?w (rev_onto ?a ?b)] =>
      pose proof (len_takeS w (rev_onto a b)) as Hw;
      assert (Hf : len (rev_onto a b) = (len a + len b)%N)
        by (rewrite rev_onto_append, len_append, len_srev; reflexivity)
  end.
  pose proof (takeS_dropS size (String x rp)) as Hsplit.
  apply (f_equal len) in Hsplit. rewrite len_append in Hsplit. lia.
Qed.

(** [TrimSpace] keeps no byte that is not in its argument, gives no
    longer a string, and what it gives does not end with a carriage
    return. *)
Lemma has_byte_TrimSpace (c : ascii) (s : string) :
  has_byte c s = false -> has_byte c (TrimSpace s) = false.
Proof.
  intros H. destruct (has_byte c (TrimSpace s)) eqn:E; [|reflexivity].
  unfold TrimSpace, TrimRightSpace, TrimLeftSpace in E.
  apply has_byte_trimRight in E. destruct E as [E | E]; [|discriminate E].
  rewrite has_byte_srev in E. apply has_byte_trimLeft in E. congruence.
Qed.

Lemma TrimSpace_no_CR (s : string) : last_char (TrimSpace s) <> Some CR.
Proof. apply trimRight_no_CR. Qed.

Lemma len_TrimSpace (s : string) : (len (TrimSpace s) <= len s)%N.
Proof.
  unfold TrimSpace, TrimRightSpace, TrimLeftSpace.
  pose proof (len_trimRight (srev (trimLeft 0 s)) "" 0) as H1.
  rewrite len_srev in H1. pose proof (len_trimLeft s 0) as H2.
  change (len "") with 0%N in H1. lia.
Qed.

End TrimFacts.

(** ** The rendezvous resolver *)

Module RendezvousFacts.

Import Rendezvous.

Section Resolver.

Variable e : Env.
Variable remote : string.

Lemma round_fails_or_succeeds (i : nat) :
  round_fails e i \/ slot_filled e i \/ dial_ok e i.
Proof.
  unfold round_fails, slot_filled, dial_ok.
  destruct (acceptCh e i) as [|c l].
  - destruct (snd (dial_result e i)) as [msg|].
    + left. split; [reflexivity | discriminate].
    + right; right; reflexivity.
  - right; left; discriminate.
Qed.

Lemma round_fails_not_success (i : nat) :
  round_fails e i -> ~ (slot_filled e i \/ dial_ok e i).
Proof.
  intros [Hs Hd] [H | H].
  - apply H, Hs.
  - apply Hd, H.
Qed.

(** A round that fails is followed by the rest of the loop. *)
Lemma establishConn_failed_round (fuel i : nat) :
  round_fails e i ->
  establishConn (S fuel) e i remote =
  (failed_round remote ++ fst (establishConn fuel e (S i) remote),
   snd (establishConn fuel e (S i) remote)).
Proof.
  intros [Hs Hd]. simpl. rewrite Hs. simpl.
  destruct (dial_result e i) as [c err]. simpl in Hd.
  destruct err as [msg|]; [|congruence]. simpl.
  destruct (establishConn fuel e (S i) remote); reflexivity.
Qed.

(** A round that finds the slot filled returns what is in it, and makes
    no dial. *)
Lemma establishConn_slot_round (fuel i : nat) (c : Conn) (l : list Conn) :
  acceptCh e i = c :: l ->
  establishConn (S fuel) e i remote = ([EvAccepted c], Some c).
Proof.
  intros Hs. simpl. rewrite Hs. reflexivity.
Qed.

(** A round that finds the slot empty and whose dial succeeds returns the
    dialled connection. *)
Lemma establishConn_dial_round (fuel i : nat) :
  acceptCh e i = [] -> dial_ok e i ->
  establishConn (S fuel) e i remote =
  ([EvSlotEmpty; EvDial remote true], Some (fst (dial_result e i))).
Proof.
  unfold dial_ok. intros Hs Hd. simpl. rewrite Hs. simpl.
  destruct (dial_result e i) as [c err]. simpl in *. subst err. reflexivity.
Qed.

(** While every round fails, the loop goes on. *)
Lemma establishConn_all_fail (n i : nat) :
  (forall j, i <= j < i + n -> round_fails e j) ->
  establishConn n e i remote = (failed_rounds n remote, None).
Proof.
  revert i. induction n as [|n IH]; intros i H.
  - reflexivity.
  - rewrite establishConn_failed_round by (apply H; lia).
    rewrite IH by (intros j Hj; apply H; lia).
    reflexivity.
Qed.

(** The loop after [n] failed rounds. *)
Lemma establishConn_skip_failed (n fuel i : nat) :
  (forall j, i <= j < i + n -> round_fails e j) ->
  establishConn (n + fuel) e i remote =
  (failed_rounds n remote ++ fst (establishConn fuel e (i + n) remote),
   snd (establishConn fuel e (i + n) remote)).
Proof.
  revert i. induction n as [|n IH]; intros i H.
  - simpl. rewrite Nat.add_0_r.
    destruct (establishConn fuel e i remote); reflexivity.
  - replace (S n + fuel) with (S (n + fuel)) by lia.
    rewrite establishConn_failed_round by (apply H; lia).
    rewrite IH by (intros j Hj; apply H; lia).
    replace (S i + n) with (i + S n) by lia.
    cbn [fst snd failed_rounds]. rewrite <- app_assoc. reflexivity.
Qed.

(** A connection is returned only by a round that succeeds. *)
Lemma establishConn_returns_success (fuel i : nat) (c : Conn) :
  snd (establishConn fuel e i remote) = Some c ->
  exists j, i <= j < i + fuel /\ (slot_filled e j \/ dial_ok e j).
Proof.
  revert i. induction fuel as [|fuel IH]; intros i H.
  - discriminate.
  - destruct (round_fails_or_succeeds i) as [Hf | Hok].
    + rewrite establishConn_failed_round in H by assumption. simpl in H.
      destruct (IH _ H) as [j [Hj Hs]]. exists j. split; [lia | assumption].
    + exists i. split; [lia | assumption].
Qed.

(** The first round that succeeds, when there is one. *)
Lemma first_success (n : nat) :
  (slot_filled e n \/ dial_ok e n) ->
  exists k, k <= n /\ (slot_filled e k \/ dial_ok e k)
            /\ forall j, j < k -> round_fails e j.
Proof.
  induction n as [n IH] using lt_wf_ind. intros Hn.
  assert (Hdec : (forall j, j < n -> round_fails e j)
                 \/ exists j, j < n /\ (slot_filled e j \/ dial_ok e j)).
  { clear IH Hn. induction n as [|n IHn].
    - left. intros j Hj. lia.
    - destruct IHn as [Hall | [j [Hj Hs]]].
      + destruct (round_fails_or_succeeds n) as [Hf | Hok].
        * left. intros j Hj. destruct (Nat.eq_dec j n) as [->|Hne];
            [assumption | apply Hall; lia].
        * right. exists n. split; [lia | assumption].
      + right. exists j. split; [lia | assumption]. }
  destruct Hdec as [Hall | [j [Hj Hs]]].
  - exists n. split; [lia | split; assumption].
  - destruct (IH j Hj Hs) as [k [Hk [Hsk Hbefore]]].
    exists k. split; [lia | split; assumption].
Qed.

(** A round that succeeds returns a connection. *)
Lemma establishConn_success_round (fuel i : nat) :
  (slot_filled e i \/ dial_ok e i) ->
  exists c, snd (establishConn (S fuel) e i remote) = Some c.
Proof.
  intros H. destruct (acceptCh e i) as [|c l] eqn:Hs.
  - destruct H as [H | H]; [contradiction H; exact Hs|].
    rewrite establishConn_dial_round by assumption. eexists; reflexivity.
  - rewrite (establishConn_slot_round fuel i c l Hs). eexists; reflexivity.
Qed.

Lemma resolvable_returns :
  resolvable e -> exists fuel c, snd (establishConn fuel e 0 remote) = Some c.
Proof.
  intros [n Hn]. destruct (first_success n Hn) as [k [_ [Hk Hbefore]]].
  destruct (establishConn_success_round 0 k Hk) as [c Hc].
  exists (k + 1), c.
  rewrite establishConn_skip_failed by (intros j Hj; apply Hbefore; lia).
  simpl snd. exact Hc.
Qed.

(** More fuel does not change what was returned. *)
Lemma establishConn_more_fuel (fuel fuel' i : nat) (c : Conn) :
  snd (establishConn fuel e i remote) = Some c ->
  fuel <= fuel' ->
  establishConn fuel' e i remote = establishConn fuel e i remote.
Proof.
  revert fuel' i. induction fuel as [|fuel IH]; intros fuel' i H Hle.
  - discriminate.
  - destruct fuel' as [|fuel']; [lia|].
    destruct (round_fails_or_succeeds i) as [Hf | Hok].
    + rewrite !establishConn_failed_round by assumption.
      rewrite establishConn_failed_round in H by assumption. simpl in H.
      rewrite (IH fuel' (S i) H) by lia. reflexivity.
    + destruct (acceptCh e i) as [|c' l] eqn:Hs.
      * destruct Hok as [Hok | Hok]; [contradiction Hok; exact Hs|].
        rewrite !establishConn_dial_round by assumption. reflexivity.
      * rewrite (establishConn_slot_round fuel i c' l Hs).
        rewrite (establishConn_slot_round fuel' i c' l Hs). reflexivity.
Qed.

Lemma returns_unique (c1 c2 : Conn) :
  returns e remote c1 -> returns e remote c2 -> c1 = c2.
Proof.
  intros [f1 H1] [f2 H2].
  destruct (Nat.le_ge_cases f1 f2) as [Hle | Hle].
  - rewrite (establishConn_more_fuel _ _ _ _ H1 Hle) in H2. congruence.
  - rewrite (establishConn_more_fuel _ _ _ _ H2 Hle) in H1. congruence.
Qed.

End Resolver.

(** C1.  An execution of [establishConn] that comes to an end (the slot
    is found filled or a dial succeeds, see C6) returns exactly one
    connection: some amount of fuel makes the loop return, and whatever
    the fuel it is the same connection.  A polling iteration that finds
    the slot filled returns the inbound connection and makes no dial,
    whatever the dial would have given; after [i] failed rounds the whole
    trace is those rounds followed by the receive from the slot. *)
Theorem establishConn_exactly_one_inbound_first
    (e : Env) (remote : string) :
  resolvable e ->
  (exists c, returns e remote c
             /\ forall c', returns e remote c' -> c' = c)
  /\ (forall fuel i c l,
        acceptCh e i = c :: l ->
        establishConn (S fuel) e i remote = ([EvAccepted c], Some c))
  /\ (forall fuel i c l,
        (forall j, j < i -> round_fails e j) ->
        acceptCh e i = c :: l ->
        establishConn (i + S fuel) e 0 remote
        = (failed_rounds i remote ++ [EvAccepted c], Some c)).
Proof.
  intros Hres. split; [|split].
  - destruct (resolvable_returns e remote Hres) as [fuel [c Hc]].
    exists c. split.
    + exists fuel. exact Hc.
    + intros c' Hc'. apply (returns_unique e remote _ _ Hc'). exists fuel. exact Hc.
  - intros fuel i c l Hs. apply (establishConn_slot_round e remote fuel i c l Hs).
  - intros fuel i c l Hbefore Hs.
    rewrite establishConn_skip_failed by (intros j Hj; apply Hbefore; lia).
    simpl plus. rewrite (establishConn_slot_round e remote fuel i c l Hs).
    reflexivity.
Qed.

Lemma establishConn_exactly_one_inbound_first_witness :
  (exists c, returns both_at_third "127.0.0.1:8081" c
             /\ forall c', returns both_at_third "127.0.0.1:8081" c'
                           -> c' = c)
  /\ establishConn 3 both_at_third 0 "127.0.0.1:8081"
     = (failed_rounds 2 "127.0.0.1:8081" ++ [EvAccepted (tcpConn 1)],
        Some (tcpConn 1)).
Proof.
  assert (Hres : resolvable both_at_third).
  { exists 2. left. unfold slot_filled. simpl. discriminate. }
  destruct (establishConn_exactly_one_inbound_first
              both_at_third "127.0.0.1:8081" Hres)
    as [Hone [_ Hthird]].
  split; [exact Hone|].
  apply (Hthird 0 2 (tcpConn 1) []).
  - intros j Hj. unfold round_fails.
    destruct j as [|[|j]]; [split; [reflexivity|discriminate] ..| lia].
  - reflexivity.
Defined.

(** C6.  [establishConn] comes to an end if and only if some polling
    iteration finds the slot filled or some dial succeeds.  An iteration
    that finds the slot empty makes one dial; when the dial fails it
    sleeps [dialRetryEvery] (700 ms) and the loop starts again.  There is
    no cap on the attempts: when the slot stays empty and every dial
    fails, the loop is still running after any number of iterations. *)
Theorem establishConn_terminates_iff (e : Env) (remote : string) :
  ((exists fuel c, snd (establishConn fuel e 0 remote) = Some c)
   <-> resolvable e)
  /\ (forall fuel i,
        round_fails e i ->
        establishConn (S fuel) e i remote
        = ([EvSlotEmpty; EvDial remote false; EvSleep (700 * Millisecond)%Z]
             ++ fst (establishConn fuel e (S i) remote),
           snd (establishConn fuel e (S i) remote)))
  /\ (~ resolvable e ->
      forall fuel,
        establishConn fuel e 0 remote = (failed_rounds fuel remote, None)).
Proof.
  split; [|split].
  - split.
    + intros [fuel [c Hc]].
      destruct (establishConn_returns_success _ _ _ _ _ Hc) as [j [_ Hj]].
      exists j. exact Hj.
    + apply resolvable_returns.
  - intros fuel i Hf. apply (establishConn_failed_round e remote fuel i Hf).
  - intros Hnot fuel. apply establishConn_all_fail.
    intros j _. destruct (round_fails_or_succeeds e j) as [Hf | Hok];
      [exact Hf | exfalso; apply Hnot; exists j; exact Hok].
Qed.

Lemma nobody_there_not_resolvable : ~ resolvable nobody_there.
Proof.
  intros [i [H | H]].
  - apply H. reflexivity.
  - discriminate H.
Qed.

Lemma establishConn_terminates_iff_witness :
  establishConn 1000 nobody_there 0 "127.0.0.1:8080"
  = (failed_rounds 1000 "127.0.0.1:8080", None).
Proof.
  exact (proj2 (proj2 (establishConn_terminates_iff
                         nobody_there "127.0.0.1:8080"))
               nobody_there_not_resolvable 1000).
Defined.

(** C10.  Under the contract of package [net] (a call that reports no
    error returns a connection), [establishConn] returns no nil
    connection, whatever the number of iterations it makes: [main] never
    takes the branch that prints "Failed to establish connection.". *)
Theorem establishConn_never_nil
    (e : Env) (remote : string) (fuel i : nat) (c : Conn) :
  env_contract e ->
  snd (establishConn fuel e i remote) = Some c ->
  c <> nilConn /\ main_after_establish c = Connected c.
Proof.
  intros [Hacc Hdial] H.
  assert (Hc : c <> nilConn).
  { revert i H. induction fuel as [|fuel IH]; intros i H.
    - discriminate.
    - destruct (round_fails_or_succeeds e i) as [Hf | Hok].
      + rewrite establishConn_failed_round in H by assumption.
        simpl in H. apply (IH _ H).
      + destruct (acceptCh e i) as [|c' l] eqn:Hs.
        * destruct Hok as [Hok | Hok]; [contradiction Hok; exact Hs|].
          rewrite establishConn_dial_round in H by assumption.
          simpl in H. injection H as <-. apply Hdial, Hok.
        * rewrite (establishConn_slot_round e remote fuel i c' l Hs) in H.
          simpl in H. injection H as <-.
          unfold acceptCh in Hs.
          destruct (accept_ready e) as [k|]; [|discriminate].
          destruct (k <=? i)%nat; [|discriminate].
          unfold net_contract in Hacc. unfold acceptOnce in Hs.
          destruct (accept_result e) as [conn err]. simpl in Hacc.
          destruct err as [msg|]; simpl in Hs; [discriminate|].
          injection Hs as <- _. apply Hacc. reflexivity. }
  split; [exact Hc|].
  unfold main_after_establish. destruct c; [contradiction|reflexivity].
Qed.

Lemma both_at_third_contract : env_contract both_at_third.
Proof.
  split.
  - intros _. discriminate.
  - intros i. unfold net_contract. simpl.
    destruct (i <? 2)%nat; simpl; [discriminate|]. intros _. discriminate.
Qed.

Lemma establishConn_never_nil_witness :
  tcpConn 1 <> nilConn
  /\ main_after_establish (tcpConn 1) = Connected (tcpConn 1).
Proof.
  apply (establishConn_never_nil both_at_third "127.0.0.1:8081" 3 0).
  - exact both_at_third_contract.
  - reflexivity.
Defined.

End RendezvousFacts.

(** ** The shutdown signal *)

Module ShutdownFacts.

Import Shutdown.

(** With nothing running in between, [closeDone] closes an open channel,
    leaves a closed one alone and never panics. *)
Lemma closeDone_alone (d : doneChan) : closeDone d = Ok DoneClosed.
Proof. destruct d; reflexivity. Qed.

(** One goroutine that runs its two steps with nothing in between does
    what [closeDone] says. *)
Lemma step_twice_is_closeDone (d : doneChan) (who : Raiser) (other : Pc) :
  let st := match who with
            | Writer => {| done := d; writer_pc := AtSelect;
                           reader_pc := other |}
            | Reader => {| done := d; writer_pc := other;
                           reader_pc := AtSelect |}
            end in
  closeDone d = Ok (done (race_step who (race_step who st)))
  /\ pc_of who (race_step who (race_step who st)) = Returned.
Proof. destruct d, who; split; reflexivity. Qed.

(** One raiser after the other: the second call finds [done] closed and
    does nothing. *)
Lemma raisers_in_turn :
  race [Writer; Writer; Reader; Reader] (both_calling DoneOpen)
  = {| done := DoneClosed; writer_pc := Returned; reader_pc := Returned |}.
Proof. reflexivity. Qed.

(** C2.  [closeDone] is not an atomic check-and-set.  When [connWriter]
    and [connReader] call it at the same time and both run their
    [select] before either runs its [close], both take the default case,
    and the second [close] panics on the channel the first one closed. *)
Theorem closeDone_concurrent_raisers_panic :
  race [Writer; Reader; Writer; Reader] (both_calling DoneOpen)
  = {| done := DoneClosed; writer_pc := Returned; reader_pc := Panicked |}
  /\ panicked (race [Writer; Reader; Writer; Reader] (both_calling DoneOpen))
     = true.
Proof. split; reflexivity. Qed.

End ShutdownFacts.

(** ** The pumps *)

Module PumpFacts.

Import StringFacts BufioFacts TrimFacts strings bufio Pumps.

(** *** [stdinReader] *)

Lemma stdinReader_loop_open (cfg : Config) (toks : list string) (i : nat) :
  stdinReader_loop cfg (fun _ => DoneOpen) i toks
  = (map SendOutgoing (forwarded cfg toks), InputEnded).
Proof.
  revert i. induction toks as [|tok toks IH]; intros i.
  - reflexivity.
  - cbn [stdinReader_loop done_ready]. unfold forwarded. cbn [map filter].
    destruct (String.eqb (TrimSpace tok) "") eqn:E; cbn [negb].
    + apply IH.
    + rewrite IH. reflexivity.
Qed.

Lemma stdinReader_loop_sends (cfg : Config) (done_at : nat -> doneChan)
    (toks : list string) (i : nat) (e : Effect) :
  In e (fst (stdinReader_loop cfg done_at i toks)) ->
  exists tok, In tok toks /\ TrimSpace tok <> ""
              /\ e = SendOutgoing (peerTag cfg +++ TrimSpace tok).
Proof.
  revert i. induction toks as [|tok toks IH]; intros i.
  - cbn [stdinReader_loop]. destruct (done_ready (done_at i)); intros [].
  - cbn [stdinReader_loop]. destruct (done_ready (done_at i)); [intros []|].
    destruct (String.eqb_spec (TrimSpace tok) "") as [E | E].
    + intros H. destruct (IH _ H) as [t [Ht Hrest]].
      exists t. split; [right; exact Ht | exact Hrest].
    + destruct (stdinReader_loop cfg done_at (S i) toks) as [effs ex] eqn:Er.
      cbn [fst]. intros [H | H].
      * exists tok. split; [left; reflexivity | split; [exact E | congruence]].
      * specialize (IH (S i)). rewrite Er in IH.
        destruct (IH H) as [t [Ht Hrest]].
        exists t. split; [right; exact Ht | exact Hrest].
Qed.

(** C8.  [stdinReader] trims every line it scans; a line that is empty
    once trimmed is left out and the others are sent to [outgoing], the
    tag before them, in the order they were typed.  When its input ends
    it returns, and nowhere does it call [closeDone]: the shutdown signal
    is as the others left it and the session goes on. *)
Theorem stdinReader_trims_drops_empty_keeps_done
    (cfg : Config) (stdin : string) :
  stdinReader cfg (fun _ => DoneOpen) stdin
  = (map SendOutgoing (forwarded cfg (fst (scan_all stdin))), InputEnded)
  /\ Forall (fun line => line <> "")
            (filter (fun line => negb (String.eqb line ""))
                    (map TrimSpace (fst (scan_all stdin))))
  /\ forall done_at e,
       In e (fst (stdinReader cfg done_at stdin)) ->
       e <> CloseDone
       /\ exists tok, In tok (fst (scan_all stdin))
                      /\ TrimSpace tok <> ""
                      /\ e = SendOutgoing (peerTag cfg +++ TrimSpace tok).
Proof.
  split; [|split].
  - apply stdinReader_loop_open.
  - apply Forall_forall. intros line H. apply filter_In in H.
    destruct H as [_ H]. destruct (String.eqb_spec line ""); [discriminate|].
    assumption.
  - intros done_at e H. apply stdinReader_loop_sends in H.
    destruct H as [tok [Hin [Hne He]]]. split.
    + rewrite He. discriminate.
    + exists tok. auto.
Qed.

Lemma stdinReader_trims_drops_empty_keeps_done_witness :
  stdinReader peerB (fun _ => DoneOpen)
    ("  hi  " +++ String LF ("   " +++ String LF "you"))
  = ([SendOutgoing "B: hi"; SendOutgoing "B: you"], InputEnded)
  /\ SendOutgoing "B: hi" <> CloseDone.
Proof.
  pose proof (stdinReader_trims_drops_empty_keeps_done peerB
                ("  hi  " +++ String LF ("   " +++ String LF "you")))
    as [Hsent [_ Hnone]].
  split.
  - exact Hsent.
  - apply (Hnone (fun _ => DoneOpen)). left. reflexivity.
Defined.

(** *** [stdinReader], step by step *)

(** What one call of [Scan] gives on a stream that ends, against all the
    tokens of the stream. *)
Lemma Scan_at_end (avail : string) (sc : Scanner) :
  match Scan sc avail true with
  | ScanToken t sc' rest =>
      fst (scan_from sc avail) = t :: fst (scan_from sc' rest)
      /\ scan_left sc' rest < scan_left sc avail
  | ScanFalse => fst (scan_from sc avail) = []
  | ScanBlocks _ => False
  end.
Proof.
  revert sc. induction avail as [|c rest IH]; intros sc.
  - cbn [Scan]. unfold scan_from, scan_left. cbn [feed].
    destruct (buf_len sc =? 0)%N eqn:E; [reflexivity|].
    cbn. split; [reflexivity | lia].
  - cbn [Scan]. unfold scan_from. cbn [feed].
    destruct (scan_byte sc c) as [sc1|t sc1|] eqn:Eb.
    + specialize (IH sc1). unfold scan_from in IH.
      destruct (Scan sc1 rest true) as [t sc' rest'| |]; try exact IH.
      destruct IH as [IH Hlt]. split; [exact IH|].
      unfold scan_left in *. cbn [String.length].
      destruct (buf_len sc1 =? 0)%N, (buf_len sc =? 0)%N; lia.
    + assert (Hnew : sc1 = NewScanner).
      { unfold scan_byte in Eb. destruct (Ascii.eqb c LF).
        - inversion Eb. reflexivity.
        - destruct (N.succ (buf_len sc) <? MaxScanTokenSize)%N; discriminate. }
      subst sc1. split.
      * destruct (feed NewScanner rest) as [ts [sc2|]]; cbn [fst];
          [destruct (buf_len sc2 =? 0)%N|]; reflexivity.
      * unfold scan_left. cbn. destruct (buf_len sc =? 0)%N; lia.
    + reflexivity.
Qed.

Ltac producer_next :=
  try unfold producer_step at 1;
  unfold producer_at, producer_start;
  cbn [producer_sends pr_pc pr_scanner pr_stdin pr_stdin_eof pr_done
       pr_outgoing done_ready app].

(** Run step by step, [stdinReader] sends what the loop
    [stdinReader_loop] says, and returns. *)
Lemma producer_sends_forwarded (cfg : Config) (n : nat) :
  forall sc stdin,
    scan_left sc stdin < n ->
    exists fuel,
      producer_sends fuel cfg (producer_start sc stdin)
      = (forwarded cfg (fst (scan_from sc stdin)), ProducerReturned).
Proof.
  induction n as [|n IH]; intros sc stdin Hn; [lia|].
  pose proof (Scan_at_end stdin sc) as Hscan.
  destruct (Scan sc stdin true) as [t sc' rest| |] eqn:Es; [| |contradiction].
  - destruct Hscan as [Htoks Hlt].
    destruct (IH sc' rest) as [fuel Hfuel]; [lia|].
    rewrite Htoks. unfold forwarded. cbn [map filter].
    unfold producer_start, forwarded in Hfuel.
    destruct (String.eqb (TrimSpace t) "") eqn:Et; cbn [negb].
    + exists (S (S fuel)). cbn [producer_sends].
      producer_next. producer_next. rewrite Es, Et. producer_next.
      rewrite Hfuel. reflexivity.
    + exists (S (S (S fuel))). cbn [producer_sends].
      producer_next. producer_next. rewrite Es, Et. producer_next.
      producer_next. cbn [chan_send List.length queueCap Nat.ltb Nat.leb app].
      producer_next. rewrite Hfuel. reflexivity.
  - exists 2. cbn [producer_sends].
    producer_next. producer_next. rewrite Es, Hscan. reflexivity.
Qed.

(** The two readings of [stdinReader] agree: run step by step on an
    input that ends, with no shutdown and with room in [outgoing], it
    sends what [stdinReader] says and returns. *)
Lemma producer_steps_agree (cfg : Config) (stdin : string) :
  exists fuel,
    producer_sends fuel cfg (producer_start NewScanner stdin)
    = (sent_outgoing (fst (stdinReader cfg (fun _ => DoneOpen) stdin)),
       ProducerReturned).
Proof.
  destruct (producer_sends_forwarded cfg _ NewScanner stdin (Nat.lt_succ_diag_r _))
    as [fuel H].
  exists fuel. rewrite H. unfold stdinReader, scan_all.
  rewrite stdinReader_loop_open. cbn [fst]. f_equal.
  generalize (forwarded cfg (fst (scan_from NewScanner stdin))) as l.
  induction l as [|m l IHl]; [reflexivity|].
  cbn [map sent_outgoing flat_map app]. f_equal. exact IHl.
Qed.

(** *** [connWriter] *)

(** C4.  For a message it takes from [outgoing], [connWriter] sets the
    write deadline five seconds after the time of that iteration, then
    writes the message and one newline, then flushes, nothing in between;
    the deadline is set anew for each message.  It calls [closeDone] and
    its loop ends if and only if the write or the flush fails; otherwise
    it goes on with the loop and leaves [done] as it was.  On a failure
    it returns with [done] closed, except when [connReader] closes
    [done] between the [select] and the [close] of that call of
    [closeDone]: then [connWriter] panics in the [close], by the defect
    of C2. *)
Theorem connWriter_writes_under_deadline
    (i : WriterInput) (w : Writer) (msg : string) (q : list string) :
  ws_status w = Running ->
  wi_case i = CaseMsg ->
  ws_outgoing w = msg :: q ->
  exists w',
    connWriter_iter i w = Some w'
    /\ ws_outgoing w' = q
    /\ ws_trace w'
       = ws_trace w
         ++ [SetWriteDeadline (wi_now i + 5 * 1000000000)%Z;
             WriteString (msg +++ String LF "")]
         ++ (if is_nil (wi_write_err i) then [Flush] else [])
         ++ (if write_failed i then [CloseDone] else [])
    /\ (write_failed i = false <->
        ws_status w' = Running /\ ws_done w' = ws_done w
        /\ ~ In CloseDone (skipn (List.length (ws_trace w)) (ws_trace w')))
    /\ (write_failed i = true <->
        ws_status w' <> Running /\ ws_done w' = DoneClosed
        /\ In CloseDone (skipn (List.length (ws_trace w)) (ws_trace w')))
    /\ (ws_status w' = Returned <->
        write_failed i = true
        /\ ~ (ws_done w = DoneOpen /\ wi_other i = ClosesBetween))
    /\ (ws_status w' = Panicked <->
        write_failed i = true
        /\ ws_done w = DoneOpen /\ wi_other i = ClosesBetween).
Proof.
  intros Hrun Hcase Hq.
  assert (Hskip : forall l, skipn (List.length (ws_trace w)) (ws_trace w ++ l) = l).
  { intros l. rewrite skipn_app, skipn_all, Nat.sub_diag. reflexivity. }
  unfold connWriter_iter, write_failed, writer_fail, closeDone_among.
  rewrite Hrun, Hcase, Hq. cbn [chan_recv].
  destruct (wi_write_err i) as [we|], (wi_flush_err i) as [fe|],
    (ws_done w) eqn:Hd, (wi_other i) eqn:Ho;
    cbn [is_nil negb orb done_ready close_chan];
    (eexists; split; [reflexivity|]);
    cbn [ws_outgoing ws_trace ws_status ws_done];
    rewrite <- ?app_assoc, Hskip;
    (split; [reflexivity|]); (split; [reflexivity|]);
    cbn [In app];
    repeat split; intros; try reflexivity; try discriminate;
    intuition (try discriminate; try congruence).
Qed.

(** The failing input of C4: the flush fails while [connReader] closes
    [done] between the [select] and the [close] of [closeDone]. *)
Lemma connWriter_writes_under_deadline_witness :
  exists w',
    connWriter_iter
      {| wi_case := CaseMsg; wi_now := 1000%Z; wi_write_err := None;
         wi_flush_err := Some "broken pipe"; wi_other := ClosesBetween |}
      {| ws_status := Running; ws_done := DoneOpen;
         ws_outgoing := ["A: hello"; "A: again"]; ws_trace := [] |}
    = Some w'
    /\ ws_outgoing w' = ["A: again"]
    /\ ws_trace w'
       = [SetWriteDeadline 5000001000%Z;
          WriteString ("A: hello" +++ String LF ""); Flush; CloseDone]
    /\ ws_status w' = Panicked.
Proof.
  destruct (connWriter_writes_under_deadline
              {| wi_case := CaseMsg; wi_now := 1000%Z; wi_write_err := None;
                 wi_flush_err := Some "broken pipe";
                 wi_other := ClosesBetween |}
              {| ws_status := Running; ws_done := DoneOpen;
                 ws_outgoing := ["A: hello"; "A: again"]; ws_trace := [] |}
              "A: hello" ["A: again"] eq_refl eq_refl eq_refl)
    as [w' [Hstep [Hq [Htr [_ [_ [_ Hpan]]]]]]].
  exists w'. split; [exact Hstep|]. split; [exact Hq|]. split; [exact Htr|].
  apply Hpan. repeat split.
Defined.

(** [connWriter] makes no iteration once it has returned. *)
Lemma connWriter_returned (ins : list WriterInput) (w : Writer) :
  ws_status w = Returned -> connWriter ins w = w.
Proof.
  intros H. induction ins as [|i ins IH]; [reflexivity|].
  cbn [connWriter]. unfold connWriter_iter. rewrite H. exact IH.
Qed.

(** *** Who sees the shutdown signal *)

(** A producer that waits stays where it is. *)
Lemma producer_steps_blocked (cfg : Config) (p : Producer) (n : nat) :
  producer_step cfg p = None ->
  producer_steps cfg n p = if (n =? 0)%nat then Some p else None.
Proof.
  intros H. destruct n as [|n]; [reflexivity|].
  cbn [producer_steps]. rewrite H. reflexivity.
Qed.

(** C9, as stated, fails: the shutdown signal is raised, [stdinReader]
    has not returned, and it never makes another step, be it while it
    waits in [Scan] for a line or while it waits for room in a full
    [outgoing]. *)
Lemma producer_blocked_after_shutdown :
  ~ (forall cfg p,
       pr_done p = DoneClosed ->
       pr_pc p <> ProducerReturned ->
       exists n p', producer_steps cfg n p = Some p'
                    /\ pr_pc p' = ProducerReturned)
  /\ (forall n, producer_steps peerA (S n) waiting_for_input = None)
  /\ (forall n, producer_steps peerA (S n) waiting_for_room = None).
Proof.
  assert (H1 : forall n, producer_steps peerA (S n) waiting_for_input = None).
  { intros n. rewrite producer_steps_blocked by reflexivity. reflexivity. }
  assert (H2 : forall n, producer_steps peerA (S n) waiting_for_room = None).
  { intros n. rewrite producer_steps_blocked by reflexivity. reflexivity. }
  split; [|split; assumption].
  intros H.
  destruct (H peerA waiting_for_input eq_refl) as [n [p' [Hsteps Hpc]]].
  - discriminate.
  - destruct n as [|n].
    + cbn in Hsteps. inversion Hsteps; subst p'. discriminate Hpc.
    + rewrite H1 in Hsteps. discriminate Hsteps.
Qed.

(** C9, amended.  Once the shutdown signal is raised, [connWriter] and
    the session loop, which wait in a [select] that has the signal among
    its cases, can run that case at any time and return when they do,
    and it is the only case they can run when their queue is empty.
    [stdinReader] looks at the signal at the top of its loop only: there
    its next step returns; while it waits for a line or for room in
    [outgoing], what it does next is the same whether the signal is
    raised or not. *)
Theorem shutdown_seen_at_select_only :
  (forall w i,
     ws_status w = Running -> ws_done w = DoneClosed ->
     (wi_case i = CaseDone ->
      exists w', connWriter_iter i w = Some w' /\ ws_status w' = Returned)
     /\ (ws_outgoing w = [] ->
         forall w', connWriter_iter i w = Some w' -> ws_status w' = Returned))
  /\ (forall s c,
        ss_status s = Running -> ss_done s = DoneClosed ->
        (c = CaseDone ->
         exists s', main_iter c s = Some s' /\ ss_status s' = Returned)
        /\ (ss_incoming s = [] ->
            forall s', main_iter c s = Some s' -> ss_status s' = Returned))
  /\ (forall cfg p,
        pr_pc p = AtTop -> pr_done p = DoneClosed ->
        exists p', producer_step cfg p = Some p'
                   /\ pr_pc p' = ProducerReturned)
  /\ (forall cfg p d,
        pr_pc p <> AtTop ->
        option_map pr_pc (producer_step cfg (producer_with_done d p))
        = option_map pr_pc (producer_step cfg p)).
Proof.
  split; [|split; [|split]].
  - intros w i Hrun Hdone. split.
    + intros Hcase. unfold connWriter_iter. rewrite Hrun, Hcase, Hdone.
      eexists. split; reflexivity.
    + intros Hq w'. unfold connWriter_iter. rewrite Hrun, Hdone, Hq.
      destruct (wi_case i); cbn; intros H; inversion H; reflexivity.
  - intros s c Hrun Hdone. split.
    + intros ->. unfold main_iter. rewrite Hrun, Hdone.
      eexists. split; reflexivity.
    + intros Hq s'. unfold main_iter. rewrite Hrun, Hdone, Hq.
      destruct c; cbn; intros H; inversion H; reflexivity.
  - intros cfg p Hpc Hdone. unfold producer_step. rewrite Hpc, Hdone.
    eexists. split; reflexivity.
  - intros cfg p d Hpc. unfold producer_step, producer_with_done.
    cbn [pr_pc pr_scanner pr_stdin pr_stdin_eof pr_done pr_outgoing].
    destruct (pr_pc p) as [| |msg|]; [contradiction Hpc; reflexivity| | |].
    + destruct (Scan (pr_scanner p) (pr_stdin p) (pr_stdin_eof p));
        try reflexivity.
      destruct (String.eqb (TrimSpace text) ""); reflexivity.
    + destruct (chan_send queueCap (pr_outgoing p) msg); reflexivity.
    + reflexivity.
Qed.

Lemma shutdown_seen_at_select_only_witness :
  (exists w',
     connWriter_iter
       {| wi_case := CaseDone; wi_now := 0%Z; wi_write_err := None;
          wi_flush_err := None; wi_other := NoOther |}
       {| ws_status := Running; ws_done := DoneClosed;
          ws_outgoing := ["A: one"]; ws_trace := [] |} = Some w'
     /\ ws_status w' = Returned)
  /\ option_map pr_pc
       (producer_step peerA (producer_with_done DoneOpen waiting_for_input))
     = option_map pr_pc (producer_step peerA waiting_for_input).
Proof.
  destruct shutdown_seen_at_select_only as [Hw [_ [_ Hp]]].
  split.
  - apply (Hw {| ws_status := Running; ws_done := DoneClosed;
                 ws_outgoing := ["A: one"]; ws_trace := [] |}
              {| wi_case := CaseDone; wi_now := 0%Z; wi_write_err := None;
                 wi_flush_err := None; wi_other := NoOther |}); reflexivity.
  - apply (Hp peerA waiting_for_input DoneOpen). discriminate.
Defined.

(** *** From the keyboard of one peer to the queue of the other *)

(** A line and the newline after it are one token for the Scanner that
    reads them from the start of a line. *)
Lemma scan_one_line (l : string) :
  has_byte LF l = false ->
  (len l < MaxScanTokenSize)%N ->
  feed NewScanner (l +++ String LF "") = ([dropCR l], Some NewScanner).
Proof.
  intros Hnl Hlen. rewrite feed_line
    by (first [exact Hnl | change (buf_len NewScanner) with 0%N; lia]).
  reflexivity.
Qed.

Lemma written_app (a b : list Effect) :
  written (a ++ b) = written a +++ written b.
Proof.
  induction a as [|e a IH]; [reflexivity|].
  destruct e; cbn [app written]; rewrite IH; try reflexivity.
  rewrite append_assoc. reflexivity.
Qed.

(** An iteration of [connWriter] that takes [msg] and meets no error
    hands [msg] and one newline to the connection: the step [Write] of
    the pipeline. *)
Lemma connWriter_iter_writes_frame
    (t : Time) (w : Writer) (msg : string) (q : list string) :
  ws_status w = Running ->
  ws_outgoing w = msg :: q ->
  exists w',
    connWriter_iter (good_write t) w = Some w'
    /\ ws_status w' = Running
    /\ ws_outgoing w' = q
    /\ written (ws_trace w') = written (ws_trace w) +++ frame msg.
Proof.
  intros Hrun Hq. unfold connWriter_iter. rewrite Hrun, Hq.
  cbn [good_write wi_case chan_recv wi_write_err wi_flush_err is_nil negb].
  eexists. split; [reflexivity|].
  cbn [ws_status ws_outgoing ws_trace]. repeat split.
  rewrite !written_app. cbn [written]. rewrite !append_nil_r. reflexivity.
Qed.

(** The producer pushes one message and [connWriter] writes it. *)
Lemma push_then_write_new (msg : string) :
  written (ws_trace (fold_left push_then_write [msg] new_writer))
  = msg +++ String LF "".
Proof.
  cbn. unfold frame. rewrite append_nil_r. reflexivity.
Qed.

(** A line typed at a peer whose tag holds no newline. *)
Lemma typed_line_relayed (sender : Config) (typed : string) :
  has_byte LF (peerTag sender) = false ->
  has_byte LF typed = false ->
  (len typed < MaxScanTokenSize)%N ->
  TrimSpace (dropCR typed) <> "" ->
  (len (peerTag sender +++ TrimSpace (dropCR typed)) < MaxScanTokenSize)%N ->
  typed_to_incoming sender (typed +++ String LF "")
  = [recvMarker +++ peerTag sender +++ TrimSpace (dropCR typed)].
Proof.
  intros Htag Hnl Hlen Hne Hfit.
  unfold typed_to_incoming, stdinReader, scan_all, scan_from.
  rewrite scan_one_line by assumption. cbn [buf_len NewScanner N.eqb fst].
  rewrite stdinReader_loop_open. unfold forwarded. cbn [map filter].
  destruct (String.eqb_spec (TrimSpace (dropCR typed)) "") as [E | _];
    [contradiction|].
  cbn [negb map fst sent_outgoing flat_map app].
  rewrite push_then_write_new. unfold connReader.
  set (L := TrimSpace (dropCR typed)) in *.
  assert (HnlL : has_byte LF (peerTag sender +++ L) = false).
  { rewrite has_byte_append, Htag. cbn [orb]. unfold L.
    apply has_byte_TrimSpace.
    destruct (has_byte LF (dropCR typed)) eqn:E; [|reflexivity].
    apply has_byte_dropCR in E. congruence. }
  rewrite scan_one_line by assumption.
  cbn [map sent_incoming flat_map fst app].
  rewrite dropCR_no_CR; [reflexivity|].
  rewrite last_char_append by exact Hne. apply TrimSpace_no_CR.
Qed.

Lemma singleton_eqb (l : list string) (x : string) :
  match l with
  | [y] => String.eqb y x
  | _ => false
  end = true ->
  l = [x].
Proof.
  destruct l as [|y [|z l]]; try discriminate.
  intros H. apply String.eqb_eq in H. subst y. reflexivity.
Qed.

(** C3, as stated, fails for a line of 65533 bytes: peer A takes it and
    sends it, and with the three bytes of the tag it no longer fits the
    Scanner of peer B, whose [Scan] returns false; nothing is sent to
    the [incoming] of peer B. *)
Lemma long_line_is_not_received :
  let typed := str_repeat "a"%char (N.to_nat 65533) in
  has_byte LF typed = false
  /\ (len typed < MaxScanTokenSize)%N
  /\ TrimSpace (dropCR typed) = typed
  /\ len typed = 65533%N
  /\ sent_outgoing (fst (stdinReader peerA (fun _ => DoneOpen)
                           (typed +++ String LF "")))
     = ["A: " +++ typed]
  /\ typed_to_incoming peerA (typed +++ String LF "") = []
  /\ typed_to_incoming peerA (typed +++ String LF "")
     <> ["RECV -> A: " +++ TrimSpace (dropCR typed)].
Proof.
  cbv zeta.
  assert (H : typed_to_incoming peerA
                (str_repeat "a"%char (N.to_nat 65533) +++ String LF "") = [])
    by (vm_compute; reflexivity).
  split; [vm_compute; reflexivity|].
  split; [vm_compute; reflexivity|].
  split; [apply String.eqb_eq; vm_compute; reflexivity|].
  split; [vm_compute; reflexivity|].
  split; [apply singleton_eqb; vm_compute; reflexivity|].
  split; [exact H|].
  rewrite H. discriminate.
Qed.

End PumpFacts.

(** ** One direction of a session *)

Module PipelineFacts.

Import StringFacts BufioFacts bufio Pumps Pipeline.

Lemma frames_app (a b : list string) : frames (a ++ b) = frames a +++ frames b.
Proof.
  induction a as [|l a IH]; cbn [frames app].
  - reflexivity.
  - rewrite IH, append_assoc. reflexivity.
Qed.

(** The Scanner reads lines that fit one after the other. *)
Lemma feed_frames (lines : list string) :
  Forall is_line lines ->
  feed NewScanner (frames lines) = (map dropCR lines, Some NewScanner).
Proof.
  induction 1 as [|l lines [Hnl Hlen] _ IH]; [reflexivity|].
  cbn [frames map]. unfold frame. rewrite append_assoc.
  change (String LF "" +++ frames lines) with (String LF (frames lines)).
  rewrite feed_line
    by (first [exact Hnl | change (buf_len NewScanner) with 0%N; lia]).
  rewrite IH. reflexivity.
Qed.

Lemma invariant_init (lines : list string) :
  Forall is_line lines -> invariant lines (init lines).
Proof.
  intros H. exists NewScanner, (map dropCR lines), NewScanner.
  split; [reflexivity|]. split.
  - unfold to_read. cbn. apply feed_frames, H.
  - cbn. unfold received_as. rewrite map_map. reflexivity.
Qed.

Lemma chan_send_some {A : Type} (cap : nat) (q q' : list A) (v : A) :
  chan_send cap q v = Some q' -> q' = q ++ [v] /\ List.length q < cap.
Proof.
  unfold chan_send.
  destruct (Nat.ltb_spec (List.length q) cap) as [Hlt | Hge]; [|discriminate].
  intros Hq. inversion Hq. split; [reflexivity | exact Hlt].
Qed.

(** Every step keeps the invariant. *)
Lemma invariant_step (lines : list string) (a : Action) (s s' : State) :
  invariant lines s -> step a s = Some s' -> invariant lines s'.
Proof.
  intros [sc [toks [sc' [Hsc [Hfeed Hall]]]]] Hstep.
  unfold to_read, delivered, held in *.
  destruct a; cbn [step] in Hstep.
  - (* Push *)
    destruct (to_push s) as [|l rest] eqn:Ep; [discriminate|].
    destruct (chan_send queueCap (outgoing s) l) as [q|] eqn:Eq; [|discriminate].
    apply chan_send_some in Eq. destruct Eq as [-> _].
    inversion Hstep; subst s'; clear Hstep.
    exists sc, toks, sc'. cbn. rewrite <- app_assoc. cbn [app].
    repeat split; assumption.
  - (* Write *)
    destruct (outgoing s) as [|msg q] eqn:Eo; [discriminate|].
    cbn [chan_recv] in Hstep. inversion Hstep; subst s'; clear Hstep.
    exists sc, toks, sc'. unfold to_read, delivered, held.
    cbn [wire outgoing to_push rd_scanner rd_token incoming shown].
    split; [exact Hsc|]. split; [|exact Hall].
    rewrite append_assoc. exact Hfeed.
  - (* NetByte *)
    destruct (rd_token s) as [t|] eqn:Et; [discriminate|].
    rewrite Hsc in Hstep.
    destruct (wire s) as [|c rest] eqn:Ew; [discriminate|].
    change (String c rest +++ frames (outgoing s ++ to_push s))
      with (String c (rest +++ frames (outgoing s ++ to_push s))) in Hfeed.
    cbn [feed] in Hfeed.
    destruct (scan_byte sc c) as [sc1|t sc1|] eqn:Eb.
    + inversion Hstep; subst s'; clear Hstep.
      exists sc1, toks, sc'. cbn. repeat split; assumption.
    + inversion Hstep; subst s'; clear Hstep.
      destruct (feed sc1 (rest +++ frames (outgoing s ++ to_push s)))
        as [ts r] eqn:Ef.
      inversion Hfeed; subst toks r; clear Hfeed.
      exists sc1, ts, sc'. cbn. repeat split; assumption.
    + discriminate Hfeed.
  - (* Enqueue *)
    destruct (rd_token s) as [t|] eqn:Et; [|discriminate].
    destruct (chan_send queueCap (incoming s) (recvMarker +++ t)) as [q|] eqn:Eq;
      [|discriminate].
    apply chan_send_some in Eq. destruct Eq as [-> _].
    inversion Hstep; subst s'; clear Hstep.
    exists sc, toks, sc'. cbn. split; [exact Hsc|]. split; [exact Hfeed|].
    rewrite Hall. cbn. rewrite <- !app_assoc. reflexivity.
  - (* Show *)
    destruct (incoming s) as [|msg q] eqn:Ei; [discriminate|].
    cbn [chan_recv] in Hstep. inversion Hstep; subst s'; clear Hstep.
    exists sc, toks, sc'. cbn. split; [exact Hsc|]. split; [exact Hfeed|].
    rewrite Hall. rewrite <- !app_assoc. reflexivity.
Qed.

Lemma invariant_run (lines : list string) (sched : list Action) (s : State) :
  invariant lines s -> invariant lines (run sched s).
Proof.
  revert s. induction sched as [|a sched IH]; intros s H; [exact H|].
  cbn [run]. destruct (step a s) as [s'|] eqn:E.
  - apply IH. exact (invariant_step lines a s s' H E).
  - apply IH, H.
Qed.

Lemma run_app (a b : list Action) (s : State) :
  run (a ++ b) s = run b (run a s).
Proof.
  revert s. induction a as [|x a IH]; intros s; [reflexivity|].
  cbn [run app]. destruct (step x s); apply IH.
Qed.

(** Once nothing is on its way, every line has been sent to [incoming]. *)
Lemma drained_all_delivered (lines : list string) (s : State) :
  invariant lines s -> drained s -> delivered s = map received_as lines.
Proof.
  intros [sc [toks [sc' [Hsc [Hfeed Hall]]]]] [Hp [Ho [Hw Ht]]].
  unfold to_read, held in *. rewrite Hp, Ho, Hw in Hfeed. rewrite Ht in Hall.
  cbn in Hfeed. inversion Hfeed; subst toks sc'.
  rewrite Hall. cbn. rewrite app_nil_r. reflexivity.
Qed.

Lemma length_append (a b : string) :
  String.length (a +++ b) = String.length a + String.length b.
Proof.
  induction a as [|c a IH]; cbn; [reflexivity | rewrite IH; reflexivity].
Qed.

Lemma weight_app (k : nat) (a b : list string) :
  weight k (a ++ b) = weight k a + weight k b.
Proof.
  unfold weight. induction a as [|l a IH]; cbn [app fold_right];
    [reflexivity|].
  rewrite IH. lia.
Qed.

Ltac count_steps :=
  unfold steps_left;
  cbn [to_push outgoing wire rd_scanner rd_token incoming shown];
  rewrite ?weight_app, ?length_append, ?length_app;
  unfold weight, frame;
  cbn [fold_right String.length List.length];
  rewrite ?length_append; cbn [String.length];
  lia.

(** Every step brings the end nearer. *)
Lemma step_decreases (a : Action) (s s' : State) :
  step a s = Some s' -> steps_left s' < steps_left s.
Proof.
  intros Hstep. destruct a; cbn [step] in Hstep.
  - destruct (to_push s) as [|l rest] eqn:Ep; [discriminate|].
    destruct (chan_send queueCap (outgoing s) l) as [q|] eqn:Eq; [|discriminate].
    apply chan_send_some in Eq. destruct Eq as [-> _].
    inversion Hstep; subst s'; clear Hstep.
    unfold steps_left at 2. rewrite Ep. count_steps.
  - destruct (outgoing s) as [|msg q] eqn:Eo; [discriminate|].
    cbn [chan_recv] in Hstep. inversion Hstep; subst s'; clear Hstep.
    unfold steps_left at 2. rewrite Eo. count_steps.
  - destruct (rd_token s) as [t|] eqn:Et; [discriminate|].
    destruct (rd_scanner s) as [sc|]; [|discriminate].
    destruct (wire s) as [|c rest] eqn:Ew; [discriminate|].
    destruct (scan_byte sc c); inversion Hstep; subst s';
      unfold steps_left at 2; rewrite Et, Ew; count_steps.
  - destruct (rd_token s) as [t|] eqn:Et; [|discriminate].
    destruct (chan_send queueCap (incoming s) (recvMarker +++ t)) as [q|] eqn:Eq;
      [|discriminate].
    apply chan_send_some in Eq. destruct Eq as [-> _].
    inversion Hstep; subst s'; clear Hstep.
    unfold steps_left at 2. rewrite Et. count_steps.
  - destruct (incoming s) as [|msg q] eqn:Ei; [discriminate|].
    cbn [chan_recv] in Hstep. inversion Hstep; subst s'; clear Hstep.
    unfold steps_left at 2. rewrite Ei. count_steps.
Qed.

(** As long as something is on its way and [Scan] has not failed, some
    goroutine can move. *)
Lemma progress (s : State) :
  rd_scanner s <> None -> drained s \/ exists a s', step a s = Some s'.
Proof.
  intros Hsc. destruct (rd_scanner s) as [sc|] eqn:Esc; [clear Hsc|congruence].
  destruct (rd_token s) as [t|] eqn:Et.
  - right. destruct (chan_send queueCap (incoming s) (recvMarker +++ t))
      as [q|] eqn:Eq.
    + exists Enqueue. cbn [step]. rewrite Et, Eq. eauto.
    + exists Show. cbn [step]. unfold chan_send in Eq.
      destruct (incoming s) as [|msg q]; [discriminate Eq|].
      cbn [chan_recv]. eauto.
  - destruct (wire s) as [|c rest] eqn:Ew.
    + destruct (outgoing s) as [|msg q] eqn:Eo.
      * destruct (to_push s) as [|l rest] eqn:Ep.
        -- left. repeat split; assumption.
        -- right. exists Push. cbn [step]. rewrite Ep, Eo. cbn. eauto.
      * right. exists Write. cbn [step]. rewrite Eo. cbn. eauto.
    + right. exists NetByte. cbn [step]. rewrite Et, Esc, Ew.
      destruct (scan_byte sc c); eauto.
Qed.

Lemma invariant_scanner (lines : list string) (s : State) :
  invariant lines s -> rd_scanner s <> None.
Proof. intros [sc [toks [sc' [Hsc _]]]]. rewrite Hsc. discriminate. Qed.

(** From any state the goroutines can go on until nothing is on its way. *)
Lemma can_drain (lines : list string) (n : nat) (s : State) :
  steps_left s <= n -> invariant lines s ->
  exists more, drained (run more s).
Proof.
  revert s. induction n as [|n IH]; intros s Hn Hinv.
  - destruct (progress s (invariant_scanner lines s Hinv))
      as [Hd | [a [s' Hstep]]].
    + exists []. exact Hd.
    + apply step_decreases in Hstep. lia.
  - destruct (progress s (invariant_scanner lines s Hinv))
      as [Hd | [a [s' Hstep]]].
    + exists []. exact Hd.
    + destruct (IH s') as [more Hmore].
      * apply step_decreases in Hstep. lia.
      * exact (invariant_step lines a s s' Hinv Hstep).
      * exists (a :: more). cbn [run]. rewrite Hstep. exact Hmore.
Qed.

(** *** A line that does not fit is a shutdown *)

(** While the Scanner is bound to fail, a step leaves it so, unless it
    is the step at which it fails. *)
Lemma doomed_step (a : Action) (s s' : State) :
  doomed s -> step a s = Some s' -> doomed s' \/ rd_scanner s' = None.
Proof.
  intros [sc [Hsc Hfeed]] Hstep. unfold doomed, to_read in *.
  destruct a; cbn [step] in Hstep.
  - destruct (to_push s) as [|l rest] eqn:Ep; [discriminate|].
    destruct (chan_send queueCap (outgoing s) l) as [q|] eqn:Eq; [|discriminate].
    apply chan_send_some in Eq. destruct Eq as [-> _].
    inversion Hstep; subst s'; clear Hstep.
    left. exists sc. cbn. rewrite <- app_assoc. cbn [app]. split; assumption.
  - destruct (outgoing s) as [|msg q] eqn:Eo; [discriminate|].
    cbn [chan_recv] in Hstep. inversion Hstep; subst s'; clear Hstep.
    left. exists sc.
    cbn [wire outgoing to_push rd_scanner rd_token incoming shown].
    split; [exact Hsc|]. rewrite append_assoc. exact Hfeed.
  - destruct (rd_token s) as [t|] eqn:Et; [discriminate|].
    rewrite Hsc in Hstep.
    destruct (wire s) as [|c rest] eqn:Ew; [discriminate|].
    change (String c rest +++ frames (outgoing s ++ to_push s))
      with (String c (rest +++ frames (outgoing s ++ to_push s))) in Hfeed.
    cbn [feed] in Hfeed.
    destruct (scan_byte sc c) as [sc1|t sc1|] eqn:Eb;
      inversion Hstep; subst s'; clear Hstep.
    + left. exists sc1. cbn. split; [reflexivity | exact Hfeed].
    + left. exists sc1. cbn. split; [reflexivity|].
      destruct (feed sc1 (rest +++ frames (outgoing s ++ to_push s))).
      exact Hfeed.
    + right. reflexivity.
  - destruct (rd_token s) as [t|] eqn:Et; [|discriminate].
    destruct (chan_send queueCap (incoming s) (recvMarker +++ t)) as [q|] eqn:Eq;
      [|discriminate].
    inversion Hstep; subst s'; clear Hstep.
    left. exists sc. cbn. split; assumption.
  - destruct (incoming s) as [|msg q] eqn:Ei; [discriminate|].
    cbn [chan_recv] in Hstep. inversion Hstep; subst s'; clear Hstep.
    left. exists sc. cbn. split; assumption.
Qed.

(** A Scanner that is bound to fail does fail when the goroutines go on. *)
Lemma doomed_shuts_down (n : nat) (s : State) :
  steps_left s <= n -> doomed s ->
  exists sched, rd_scanner (run sched s) = None.
Proof.
  revert s. induction n as [|n IH]; intros s Hn Hdoom;
    (assert (Hsc : rd_scanner s <> None)
       by (destruct Hdoom as [sc [Hsc _]]; rewrite Hsc; discriminate));
    (destruct (progress s Hsc) as [Hd | [a [s' Hstep]]];
     [ exfalso; destruct Hdoom as [sc [_ Hfeed]];
       destruct Hd as [Hp [Ho [Hw _]]]; unfold to_read in Hfeed;
       rewrite Hp, Ho, Hw in Hfeed; discriminate Hfeed |]).
  - apply step_decreases in Hstep. lia.
  - destruct (doomed_step a s s' Hdoom Hstep) as [Hdoom' | Hnone].
    + destruct (IH s') as [sched Hsched];
        [apply step_decreases in Hstep; lia | exact Hdoom' |].
      exists (a :: sched). cbn [run]. rewrite Hstep. exact Hsched.
    + exists [a]. cbn [run]. rewrite Hstep. exact Hnone.
Qed.

(** Lines one of which does not fit make the Scanner fail. *)
Lemma feed_frames_too_long (lines : list string) :
  Forall no_newline lines ->
  Exists (fun l => (MaxScanTokenSize <= len l)%N) lines ->
  snd (feed NewScanner (frames lines)) = None.
Proof.
  induction 1 as [|l lines Hnl _ IH]; intros Hex; [inversion Hex|].
  cbn [frames]. unfold frame. rewrite append_assoc.
  change (String LF "" +++ frames lines) with (String LF (frames lines)).
  destruct (N.lt_ge_cases (len l) MaxScanTokenSize) as [Hfit | Hlong].
  - rewrite feed_line
      by (first [exact Hnl | change (buf_len NewScanner) with 0%N; lia]).
    cbn [snd]. apply IH. inversion Hex; subst; [lia | assumption].
  - rewrite feed_too_long by assumption. reflexivity.
Qed.

(** Of lines without a newline, those that fit are those on which the
    receiver raises no shutdown, however the goroutines take turns. *)
Lemma no_shutdown_iff_lines_fit (lines : list string) :
  Forall no_newline lines ->
  (forall sched, no_shutdown (run sched (init lines)))
  <-> Forall is_line lines.
Proof.
  intros Hnl. split.
  - intros Hno. apply Forall_forall. intros l Hin. split.
    + exact (proj1 (Forall_forall _ _) Hnl l Hin).
    + destruct (N.lt_ge_cases (len l) MaxScanTokenSize) as [Hfit | Hlong];
        [exact Hfit | exfalso].
      assert (Hdoom : doomed (init lines)).
      { exists NewScanner. split; [reflexivity|].
        unfold to_read. cbn [wire outgoing to_push init app String.append].
        apply feed_frames_too_long; [exact Hnl|].
        apply Exists_exists. exists l. split; assumption. }
      destruct (doomed_shuts_down _ _ (Nat.le_refl _) Hdoom) as [sched Hs].
      exact (Hno sched Hs).
  - intros Hfit sched.
    apply (invariant_scanner lines).
    apply invariant_run, invariant_init, Hfit.
Qed.

(** C7.  The [N] lines pushed onto [outgoing] (strings without a
    newline), over a transport that loses and reorders nothing, with no
    write that fails and no shutdown raised by the receiver however the
    goroutines take their turns: what has been sent to the receiver's
    [incoming] so far is a beginning of the [N] lines as they are to be
    received, in the order they were pushed; when no goroutine can move
    any more all [N] have been sent; and from any state the goroutines
    can go on until they have. *)
Theorem lines_arrive_in_order (lines : list string) (sched : list Action) :
  Forall no_newline lines ->
  (forall sched', no_shutdown (run sched' (init lines))) ->
  (exists later,
     map received_as lines = delivered (run sched (init lines)) ++ later)
  /\ ((forall a, step a (run sched (init lines)) = None) ->
      delivered (run sched (init lines)) = map received_as lines)
  /\ (exists more,
        delivered (run (sched ++ more) (init lines)) = map received_as lines)
  /\ List.length (map received_as lines) = List.length lines.
Proof.
  intros Hnl Hno.
  pose proof (proj1 (no_shutdown_iff_lines_fit lines Hnl) Hno) as Hlines.
  pose proof (invariant_run lines sched _ (invariant_init lines Hlines)) as Hinv.
  split; [|split; [|split]].
  - destruct Hinv as [sc [toks [sc' [_ [_ Hall]]]]]. eexists. exact Hall.
  - intros Hstuck. apply drained_all_delivered; [exact Hinv|].
    destruct (progress _ (invariant_scanner lines _ Hinv))
      as [Hd | [a [s' Hstep]]]; [exact Hd|].
    rewrite Hstuck in Hstep. discriminate Hstep.
  - destruct (can_drain lines _ _ (Nat.le_refl _) Hinv) as [more Hmore].
    exists more. rewrite run_app. apply drained_all_delivered; [|exact Hmore].
    apply invariant_run. exact Hinv.
  - apply length_map.
Qed.

Lemma three_lines_fit : Forall is_line ["A: one"; "A: two"; "A: three"].
Proof. repeat constructor. Qed.

Lemma lines_arrive_in_order_witness :
  (exists later,
     ["RECV -> A: one"; "RECV -> A: two"; "RECV -> A: three"]
     = delivered (run [Push; Push; Write; NetByte; Write; Push]
                      (init ["A: one"; "A: two"; "A: three"])) ++ later)
  /\ (exists more,
        delivered (run ([Push; Push; Write; NetByte; Write; Push] ++ more)
                       (init ["A: one"; "A: two"; "A: three"]))
        = ["RECV -> A: one"; "RECV -> A: two"; "RECV -> A: three"]).
Proof.
  assert (Hnl : Forall no_newline ["A: one"; "A: two"; "A: three"]).
  { repeat constructor. }
  destruct (lines_arrive_in_order ["A: one"; "A: two"; "A: three"]
              [Push; Push; Write; NetByte; Write; Push] Hnl
              (proj2 (no_shutdown_iff_lines_fit _ Hnl) three_lines_fit))
    as [Hpre [_ [Hall _]]].
  split; [exact Hpre | exact Hall].
Defined.

End PipelineFacts.

(** ** What the rendezvous costs *)

Module ResolverTraceFacts.

Import Rendezvous RendezvousFacts ResolverTrace.

Lemma slept_app (a b : list Event) : slept (a ++ b) = (slept a + slept b)%Z.
Proof.
  induction a as [|ev a IH]; [reflexivity|].
  destruct ev; cbn [app slept]; rewrite IH; lia.
Qed.

Lemma dials_app (a b : list Event) : dials (a ++ b) = dials a + dials b.
Proof.
  induction a as [|ev a IH]; [reflexivity|].
  destruct ev; cbn [app dials]; rewrite IH; reflexivity.
Qed.

Lemma slept_failed_rounds (n : nat) (remote : string) :
  slept (failed_rounds n remote) = (Z.of_nat n * dialRetryEvery)%Z.
Proof.
  induction n as [|n IH]; [reflexivity|].
  cbn [failed_rounds]. rewrite slept_app, IH. cbn [failed_round slept]. lia.
Qed.

Lemma dials_failed_rounds (n : nat) (remote : string) :
  dials (failed_rounds n remote) = n.
Proof.
  induction n as [|n IH]; [reflexivity|].
  cbn [failed_rounds]. rewrite dials_app, IH. reflexivity.
Qed.

(** X1.  [establishConn] returns at the first round that succeeds, what is in
    the slot if the slot is filled then and what it dialled otherwise.
    By then it has slept once, for 700 ms, after each round that failed,
    and has dialled once in each round that found the slot empty. *)
Theorem establishConn_first_success
    (e : Env) (remote : string) (k fuel : nat) :
  (forall j, j < k -> round_fails e j) ->
  slot_filled e k \/ dial_ok e k ->
  snd (establishConn (k + S fuel) e 0 remote) = Some (round_result e k)
  /\ slept (fst (establishConn (k + S fuel) e 0 remote))
     = (Z.of_nat k * (700 * Millisecond))%Z
  /\ dials (fst (establishConn (k + S fuel) e 0 remote))
     = k + (match acceptCh e k with [] => 1 | _ :: _ => 0 end).
Proof.
  intros Hbefore Hk.
  rewrite establishConn_skip_failed by (intros j Hj; apply Hbefore; lia).
  cbn [fst snd plus]. rewrite slept_app, dials_app.
  rewrite slept_failed_rounds, dials_failed_rounds.
  unfold round_result. destruct (acceptCh e k) as [|c l] eqn:Hs.
  - destruct Hk as [Hk | Hk]; [contradiction Hk; exact Hs|].
    rewrite establishConn_dial_round by assumption.
    cbn [fst snd slept dials]. repeat split; unfold dialRetryEvery; lia.
  - rewrite (establishConn_slot_round e remote fuel k c l Hs).
    cbn [fst snd slept dials]. repeat split; unfold dialRetryEvery; lia.
Qed.

Lemma establishConn_first_success_witness :
  snd (establishConn 3 both_at_third 0 "127.0.0.1:8081")
  = Some (tcpConn 1)
  /\ slept (fst (establishConn 3 both_at_third 0 "127.0.0.1:8081"))
     = 1400000000%Z
  /\ dials (fst (establishConn 3 both_at_third 0 "127.0.0.1:8081")) = 2.
Proof.
  apply (establishConn_first_success both_at_third "127.0.0.1:8081" 2 0).
  - intros j Hj. unfold round_fails.
    destruct j as [|[|j]]; [split; [reflexivity|discriminate] ..| lia].
  - left. unfold slot_filled. simpl. discriminate.
Defined.

(** X2.  Two peers can end up on two different connections.  When the first
    dial of each succeeds while its slot is still empty, each returns
    the connection it dialled; the one the other peer dialled comes into
    its slot later and is never returned, whatever the number of
    rounds. *)
Theorem establishConn_both_dial_first
    (eA eB : Env) (remoteA remoteB : string) (cA cB : Conn) :
  acceptCh eA 0 = [] -> dial_result eA 0 = (cA, None) ->
  acceptCh eB 0 = [] -> dial_result eB 0 = (cB, None) ->
  acceptOnce (accept_result eB) = Some cA ->
  acceptOnce (accept_result eA) = Some cB ->
  cA <> cB ->
  (forall fuel, snd (establishConn (S fuel) eA 0 remoteA) = Some cA)
  /\ (forall fuel, snd (establishConn (S fuel) eB 0 remoteB) = Some cB)
  /\ (forall fuel, snd (establishConn fuel eB 0 remoteB) <> Some cA)
  /\ (forall fuel, snd (establishConn fuel eA 0 remoteA) <> Some cB).
Proof.
  intros HsA HdA HsB HdB _ _ Hne.
  assert (HA : forall fuel, snd (establishConn (S fuel) eA 0 remoteA) = Some cA).
  { intros fuel. rewrite establishConn_dial_round;
      [rewrite HdA; reflexivity | exact HsA | unfold dial_ok; rewrite HdA; reflexivity]. }
  assert (HB : forall fuel, snd (establishConn (S fuel) eB 0 remoteB) = Some cB).
  { intros fuel. rewrite establishConn_dial_round;
      [rewrite HdB; reflexivity | exact HsB | unfold dial_ok; rewrite HdB; reflexivity]. }
  split; [exact HA | split; [exact HB | split]].
  - intros [|fuel]; [discriminate|]. rewrite HB. congruence.
  - intros [|fuel]; [discriminate|]. rewrite HA. congruence.
Qed.

Lemma establishConn_both_dial_first_witness :
  snd (establishConn 5 (dials_first (tcpConn 1) 0 (tcpConn 2)) 0
         "127.0.0.1:8081") = Some (tcpConn 1)
  /\ snd (establishConn 5 (dials_first (tcpConn 2) 0 (tcpConn 1)) 0
            "127.0.0.1:8080") = Some (tcpConn 2)
  /\ snd (establishConn 5 (dials_first (tcpConn 2) 0 (tcpConn 1)) 0
            "127.0.0.1:8080") <> Some (tcpConn 1)
  /\ snd (establishConn 5 (dials_first (tcpConn 1) 0 (tcpConn 2)) 0
            "127.0.0.1:8081") <> Some (tcpConn 2).
Proof.
  destruct (establishConn_both_dial_first
              (dials_first (tcpConn 1) 0 (tcpConn 2))
              (dials_first (tcpConn 2) 0 (tcpConn 1))
              "127.0.0.1:8081" "127.0.0.1:8080" (tcpConn 1) (tcpConn 2)
              eq_refl eq_refl eq_refl eq_refl eq_refl eq_refl)
    as [HA [HB [HnB HnA]]].
  - discriminate.
  - split; [exact (HA 4) | split; [exact (HB 4) | split]].
    + exact (HnB 5).
    + exact (HnA 5).
Defined.

(** X3.  When [ln.Accept] fails, [acceptOnce] returns without sending: the
    slot stays empty for ever, and a connection [establishConn] returns
    is one it dialled, in a round whose dial succeeded. *)
Theorem accept_error_leaves_dial_only
    (e : Env) (remote : string) (fuel : nat) (c : Conn) :
  snd (accept_result e) <> None ->
  snd (establishConn fuel e 0 remote) = Some c ->
  (forall i, acceptCh e i = [])
  /\ exists k, k < fuel /\ dial_ok e k /\ c = fst (dial_result e k).
Proof.
  intros Herr Hret.
  assert (Hempty : forall i, acceptCh e i = []).
  { intros i. unfold acceptCh, acceptOnce.
    destruct (accept_ready e) as [k|]; [|reflexivity].
    destruct (accept_result e) as [conn err]. cbn [snd] in Herr.
    destruct err; [|contradiction Herr; reflexivity].
    destruct (k <=? i)%nat; reflexivity. }
  split; [exact Hempty|].
  assert (H : forall i, snd (establishConn fuel e i remote) = Some c ->
            exists k, i <= k < i + fuel /\ dial_ok e k
                      /\ c = fst (dial_result e k)).
  { clear Hret. induction fuel as [|fuel IH]; intros i H; [discriminate|].
    destruct (round_fails_or_succeeds e i) as [Hf | [Hs | Hd]].
    - rewrite establishConn_failed_round in H by assumption. cbn [snd] in H.
      destruct (IH _ H) as [k [Hk Hrest]]. exists k. split; [lia | exact Hrest].
    - contradiction Hs. apply Hempty.
    - rewrite establishConn_dial_round in H by (first [apply Hempty | exact Hd]).
      cbn [snd] in H. injection H as <-. exists i.
      split; [lia | split; [exact Hd | reflexivity]]. }
  destruct (H 0 Hret) as [k [Hk Hrest]]. exists k. split; [lia | exact Hrest].
Qed.

Lemma accept_error_leaves_dial_only_witness :
  (forall i, acceptCh (accept_fails 2) i = [])
  /\ exists k, k < 5 /\ dial_ok (accept_fails 2) k
               /\ tcpConn 7 = fst (dial_result (accept_fails 2) k).
Proof.
  apply (accept_error_leaves_dial_only (accept_fails 2) "127.0.0.1:8080" 5).
  - discriminate.
  - reflexivity.
Defined.

End ResolverTraceFacts.

(** ** The pumps, run after run *)

Module RunsFacts.

Import StringFacts BufioFacts TrimFacts strings bufio Pumps PumpFacts.
Import Pipeline PipelineFacts Runs.

(** *** [stdinReader] *)

(** X4.  [stdinReader] stops at the first iteration that finds the shutdown
    signal raised: it has sent what the lines scanned before give, and
    sends nothing for the lines that are left. *)
Theorem stdinReader_stops_at_shutdown
    (cfg : Config) (done_at : nat -> doneChan) (stdin : string) (k : nat) :
  (forall j, j < k -> done_at j = DoneOpen) ->
  done_at k = DoneClosed ->
  k <= List.length (fst (scan_all stdin)) ->
  stdinReader cfg done_at stdin
  = (map SendOutgoing (forwarded cfg (firstn k (fst (scan_all stdin)))),
     SawShutdown).
Proof.
  unfold stdinReader. generalize (fst (scan_all stdin)) as toks.
  intros toks Hopen Hclosed Hk.
  assert (H : forall i,
            (forall j, j < k -> done_at (i + j) = DoneOpen) ->
            done_at (i + k) = DoneClosed ->
            stdinReader_loop cfg done_at i toks
            = (map SendOutgoing (forwarded cfg (firstn k toks)), SawShutdown)).
  { clear Hopen Hclosed. revert toks Hk.
    induction k as [|k IH]; intros toks Hk i Hopen Hclosed.
    - rewrite Nat.add_0_r in Hclosed.
      destruct toks; cbn [stdinReader_loop]; rewrite Hclosed; reflexivity.
    - destruct toks as [|tok toks]; [cbn in Hk; lia|].
      cbn [stdinReader_loop firstn].
      pose proof (Hopen 0 (Nat.lt_0_succ _)) as H0.
      rewrite Nat.add_0_r in H0. rewrite H0. cbn [done_ready].
      rewrite (IH toks) with (i := S i);
        [| cbn in Hk; lia
         | intros j Hj; replace (S i + j) with (i + S j) by lia;
           apply Hopen; lia
         | replace (S i + k) with (i + S k) by lia; exact Hclosed].
      unfold forwarded. cbn [map filter].
      destruct (String.eqb (TrimSpace tok) ""); reflexivity. }
  apply (H 0); assumption.
Qed.

Lemma stdinReader_stops_at_shutdown_witness :
  stdinReader peerA (fun i => if (i <? 1)%nat then DoneOpen else DoneClosed)
    ("one" +++ String LF ("two" +++ String LF "three"))
  = ([SendOutgoing "A: one"], SawShutdown).
Proof.
  apply (stdinReader_stops_at_shutdown peerA
           (fun i => if (i <? 1)%nat then DoneOpen else DoneClosed)
           ("one" +++ String LF ("two" +++ String LF "three")) 1).
  - intros j Hj. destruct j; [reflexivity | lia].
  - reflexivity.
  - cbn. lia.
Defined.

(** The tokens of a Scanner hold no newline and are shorter than its
    largest buffer. *)
Lemma feed_tokens_lines (s : string) (sc : Scanner) (t : string) :
  scanner_ok sc ->
  In t (fst (scan_from sc s)) ->
  has_byte LF t = false /\ (len t < MaxScanTokenSize)%N.
Proof.
  assert (Htok : forall sc0, scanner_ok sc0 ->
            has_byte LF (dropCR (srev (buf_rev sc0))) = false
            /\ (len (dropCR (srev (buf_rev sc0))) < MaxScanTokenSize)%N).
  { intros sc0 [Hlen [Hlt Hnl]]. split.
    - destruct (has_byte LF (dropCR (srev (buf_rev sc0)))) eqn:E;
        [|reflexivity].
      apply has_byte_dropCR in E. rewrite has_byte_srev in E. congruence.
    - pose proof (len_dropCR (srev (buf_rev sc0))) as Hd.
      rewrite len_srev in Hd. lia. }
  revert sc. induction s as [|c s IH]; intros sc Hok.
  - unfold scan_from. cbn [feed].
    destruct (buf_len sc =? 0)%N; cbn [fst app]; [intros []|].
    intros [<- | []]. apply Htok, Hok.
  - unfold scan_from. cbn [feed]. unfold scan_byte.
    destruct (Ascii.eqb c LF) eqn:Ec.
    + specialize (IH NewScanner NewScanner_ok). unfold scan_from in IH.
      destruct (feed NewScanner s) as [ts [sc'|]]; cbn [fst] in *.
      * destruct (buf_len sc' =? 0)%N; cbn [fst app] in *;
          (intros [<- | Hin]; [apply Htok, Hok | apply IH, Hin]).
      * intros [<- | Hin]; [apply Htok, Hok | apply IH, Hin].
    + destruct (N.succ (buf_len sc) <? MaxScanTokenSize)%N eqn:El;
        [|intros []].
      apply N.ltb_lt in El.
      apply IH. destruct Hok as [Hlen [Hlt Hnl]].
      unfold scanner_ok. cbn [buf_rev buf_len]. rewrite len_cons.
      split; [lia | split; [exact El|]].
      cbn [has_byte]. rewrite Ascii.eqb_sym, Ec, Hnl. reflexivity.
Qed.

(** A message sent comes from a line scanned. *)
Lemma sent_message_token
    (cfg : Config) (done_at : nat -> doneChan) (stdin msg : string) :
  In msg (sent_outgoing (fst (stdinReader cfg done_at stdin))) ->
  exists tok,
    In tok (fst (scan_all stdin)) /\ TrimSpace tok <> ""
    /\ msg = peerTag cfg +++ TrimSpace tok.
Proof.
  intros Hin. unfold sent_outgoing in Hin. apply in_flat_map in Hin.
  destruct Hin as [e [He Hmsg]].
  apply stdinReader_loop_sends in He.
  destruct He as [tok [Htok [Hne ->]]]. cbn in Hmsg.
  destruct Hmsg as [<- | []]. exists tok. auto.
Qed.

(** X5.  Every message [stdinReader] sends is one line of the wire format:
    the tag, then a text that is not empty, holds no newline, does not
    end with a carriage return and is shorter than the largest buffer of
    a Scanner. *)
Theorem stdinReader_sends_wire_lines
    (cfg : Config) (done_at : nat -> doneChan) (stdin msg : string) :
  has_byte LF (peerTag cfg) = false ->
  In msg (sent_outgoing (fst (stdinReader cfg done_at stdin))) ->
  has_byte LF msg = false
  /\ last_char msg <> Some CR
  /\ exists text,
       msg = peerTag cfg +++ text /\ text <> ""
       /\ (len text < MaxScanTokenSize)%N.
Proof.
  intros Htag Hin.
  destruct (sent_message_token cfg done_at stdin msg Hin)
    as [tok [Htok [Hne ->]]].
  destruct (feed_tokens_lines stdin NewScanner tok NewScanner_ok Htok)
    as [Hnl Hlen].
  split; [|split].
  - rewrite has_byte_append, Htag. cbn [orb].
    apply has_byte_TrimSpace, Hnl.
  - rewrite last_char_append by exact Hne. apply TrimSpace_no_CR.
  - exists (TrimSpace tok). split; [reflexivity | split; [exact Hne|]].
    pose proof (len_TrimSpace tok). lia.
Qed.

Lemma stdinReader_sends_wire_lines_witness :
  has_byte LF "B: hi" = false
  /\ last_char "B: hi" <> Some CR
  /\ exists text,
       "B: hi" = peerTag peerB +++ text /\ text <> ""
       /\ (len text < MaxScanTokenSize)%N.
Proof.
  apply (stdinReader_sends_wire_lines peerB (fun _ => DoneOpen)
           (" hi " +++ String CR (String LF "  "))).
  - reflexivity.
  - left. reflexivity.
Defined.

(** *** [connWriter] *)

Lemma close_calls_app (a b : list Effect) :
  close_calls (a ++ b) = close_calls a + close_calls b.
Proof.
  induction a as [|e a IH]; [reflexivity|].
  destruct e; cbn [app close_calls]; rewrite IH; reflexivity.
Qed.

(** What one iteration of [connWriter] can be: it returns on the
    shutdown signal, or it takes the oldest message and hands it to the
    connection, and calls [closeDone] if that fails. *)
Lemma connWriter_iter_cases (i : WriterInput) (w w' : Writer) :
  connWriter_iter i w = Some w' ->
  ws_status w = Running
  /\ ((ws_status w' = Returned /\ ws_done w = DoneClosed
       /\ ws_outgoing w' = ws_outgoing w /\ ws_trace w' = ws_trace w)
      \/ exists msg,
           ws_outgoing w = msg :: ws_outgoing w'
           /\ written (ws_trace w') = written (ws_trace w) +++ frame msg
           /\ ((ws_status w' = Running
                /\ close_calls (ws_trace w') = close_calls (ws_trace w))
               \/ (ws_status w' <> Running /\ ws_done w' = DoneClosed
                   /\ close_calls (ws_trace w')
                      = S (close_calls (ws_trace w))))).
Proof.
  unfold connWriter_iter.
  destruct (ws_status w); try discriminate. intros H. split; [reflexivity|].
  destruct (wi_case i).
  - destruct (ws_done w); cbn [done_ready] in H; [discriminate|].
    inversion H; subst w'. left. repeat split.
  - destruct (ws_outgoing w) as [|msg q]; [discriminate|].
    cbn [chan_recv] in H. right. exists msg.
    unfold writer_fail, closeDone_among in H.
    destruct (wi_write_err i); cbn [is_nil negb] in H;
      [|destruct (wi_flush_err i); cbn [is_nil negb] in H];
      try (destruct (ws_done w), (wi_other i);
           cbn [done_ready close_chan] in H);
      inversion H; subst w'; clear H;
      cbn [ws_outgoing ws_trace ws_status ws_done];
      rewrite ?written_app, ?close_calls_app; cbn [written close_calls];
      rewrite ?append_nil_r, ?Nat.add_0_r;
      (split; [reflexivity|]); (split; [reflexivity|]);
      first [ left; split; reflexivity
            | right; repeat split; first [discriminate | lia] ].
Qed.

Lemma connWriter_stopped (ins : list WriterInput) (w : Writer) :
  ws_status w <> Running -> connWriter ins w = w.
Proof.
  intros H. induction ins as [|i ins IH]; [reflexivity|].
  cbn [connWriter]. unfold connWriter_iter.
  destruct (ws_status w); [contradiction H; reflexivity | exact IH | exact IH].
Qed.

(** Iterations whose [select] runs the message case and whose writes
    meet no error take one message each. *)
Lemma connWriter_good_prefix
    (ts : list Time) (rest : list WriterInput) (w : Writer) :
  ws_status w = Running ->
  List.length ts <= List.length (ws_outgoing w) ->
  exists wn,
    connWriter (map good_write ts ++ rest) w = connWriter rest wn
    /\ ws_status wn = Running
    /\ ws_done wn = ws_done w
    /\ ws_outgoing wn = skipn (List.length ts) (ws_outgoing w)
    /\ written (ws_trace wn)
       = written (ws_trace w)
         +++ frames (firstn (List.length ts) (ws_outgoing w))
    /\ close_calls (ws_trace wn) = close_calls (ws_trace w).
Proof.
  revert w. induction ts as [|t ts IH]; intros w Hrun Hlen.
  - exists w. cbn [map app List.length skipn firstn frames].
    rewrite append_nil_r. repeat split. exact Hrun.
  - destruct (ws_outgoing w) as [|msg q] eqn:Hq; [cbn in Hlen; lia|].
    assert (Hstep : connWriter_iter (good_write t) w
                    = Some {| ws_status := Running; ws_done := ws_done w;
                              ws_outgoing := q;
                              ws_trace :=
                                (ws_trace w
                                 ++ [SetWriteDeadline
                                       (time_Add t connWriteTimeout);
                                     WriteString (frame msg)]) ++ [Flush] |}).
    { unfold connWriter_iter. rewrite Hrun, Hq. reflexivity. }
    cbn [map app connWriter]. rewrite Hstep.
    match goal with |- context [connWriter _ ?w1] => destruct (IH w1) as
        [wn [Hrunn [Hs [Hd [Ho [Hw Hc]]]]]] end;
      [reflexivity | cbn in *; lia |].
    exists wn. cbn [ws_done ws_outgoing ws_trace] in *.
    cbn [List.length skipn firstn frames].
    split; [exact Hrunn|]. split; [exact Hs|]. split; [exact Hd|].
    split; [exact Ho|]. split.
    + rewrite Hw, !written_app. cbn [written].
      rewrite !append_nil_r, append_assoc. reflexivity.
    + rewrite Hc, !close_calls_app. cbn [close_calls]. lia.
Qed.

(** X6.  While its [select] runs the message case and no write fails,
    [connWriter] hands to the connection as many messages of [outgoing]
    as it makes iterations, oldest first, each one followed by one
    newline, and goes on.  Whatever the cases its [select] runs and
    whatever the errors of the connection, what it has handed to the
    connection is a beginning of the queue, in order and each message
    once; what it has not taken is still in the queue, in order; it
    calls [closeDone] at most once, and when it did its loop has ended,
    with [done] closed. *)
Theorem connWriter_writes_queue_in_order
    (ts : list Time) (ins : list WriterInput) (w : Writer) :
  ws_status w = Running ->
  List.length ts <= List.length (ws_outgoing w) ->
  (ws_status (connWriter (map good_write ts) w) = Running
   /\ ws_outgoing (connWriter (map good_write ts) w)
      = skipn (List.length ts) (ws_outgoing w)
   /\ written (ws_trace (connWriter (map good_write ts) w))
      = written (ws_trace w)
        +++ frames (firstn (List.length ts) (ws_outgoing w))
   /\ close_calls (ws_trace (connWriter (map good_write ts) w))
      = close_calls (ws_trace w))
  /\ exists k,
       k <= List.length (ws_outgoing w)
       /\ ws_outgoing (connWriter ins w) = skipn k (ws_outgoing w)
       /\ written (ws_trace (connWriter ins w))
          = written (ws_trace w) +++ frames (firstn k (ws_outgoing w))
       /\ (close_calls (ws_trace (connWriter ins w))
           = close_calls (ws_trace w)
           \/ (close_calls (ws_trace (connWriter ins w))
               = S (close_calls (ws_trace w))
               /\ ws_status (connWriter ins w) <> Running
               /\ ws_done (connWriter ins w) = DoneClosed)).
Proof.
  intros Hrun Hlen. split.
  - destruct (connWriter_good_prefix ts [] w Hrun Hlen)
      as [wn [Heq [Hs [_ [Ho [Hw Hc]]]]]].
    rewrite app_nil_r in Heq. cbn [connWriter] in Heq. rewrite Heq.
    repeat split; assumption.
  - clear ts Hrun Hlen. revert w. induction ins as [|i ins IH]; intros w.
    + exists 0. cbn [connWriter skipn firstn frames].
      rewrite append_nil_r. repeat split; [lia | left; reflexivity].
    + cbn [connWriter]. destruct (connWriter_iter i w) as [w'|] eqn:Ei;
        [|apply IH].
      apply connWriter_iter_cases in Ei.
      destruct Ei as [_ [[Hret [_ [Hq Htr]]] | [msg [Hq [Hwr Hcl]]]]].
      * rewrite (connWriter_returned ins w' Hret). exists 0.
        cbn [skipn firstn frames]. rewrite append_nil_r, Hq, Htr.
        repeat split; [lia | left; reflexivity].
      * destruct (IH w') as [k [Hk [Hq' [Hwr' Hcl']]]].
        exists (S k). rewrite Hq. cbn [List.length skipn firstn frames].
        split; [lia|]. split; [exact Hq'|]. split.
        -- rewrite Hwr', Hwr, append_assoc. reflexivity.
        -- destruct Hcl as [[Hr Hc] | [Hstop [Hd Hc]]].
           ++ rewrite <- Hc. exact Hcl'.
           ++ rewrite (connWriter_stopped ins w' Hstop) in *.
              right. repeat split; assumption.
Qed.

Lemma connWriter_writes_queue_in_order_witness :
  written (ws_trace (connWriter (map good_write [1%Z; 2%Z])
                       (writer_on ["A: one"; "A: two"; "A: three"])))
  = "A: one" +++ String LF ("A: two" +++ String LF "")
  /\ ws_outgoing (connWriter (map good_write [1%Z; 2%Z])
                    (writer_on ["A: one"; "A: two"; "A: three"]))
     = ["A: three"].
Proof.
  destruct (connWriter_writes_queue_in_order [1%Z; 2%Z] []
              (writer_on ["A: one"; "A: two"; "A: three"]) eq_refl)
    as [[_ [Ho [Hw _]]] _].
  - cbn. lia.
  - split; [exact Hw | exact Ho].
Defined.

(** While no write fails and the shutdown signal stays down,
    [connWriter] empties the queue: what it has handed to the connection
    is every message of the queue, framed, in order. *)
Lemma connWriter_good_writes (ts : list Time) (w : Writer) :
  ws_status w = Running ->
  List.length ts = List.length (ws_outgoing w) ->
  ws_status (connWriter (map good_write ts) w) = Running
  /\ ws_outgoing (connWriter (map good_write ts) w) = []
  /\ written (ws_trace (connWriter (map good_write ts) w))
     = written (ws_trace w) +++ frames (ws_outgoing w).
Proof.
  intros Hrun Hlen.
  destruct (connWriter_good_prefix ts [] w Hrun) as
    [wn [Heq [Hs [_ [Ho [Hw _]]]]]]; [lia|].
  rewrite app_nil_r in Heq. cbn [connWriter] in Heq. rewrite Heq.
  rewrite Hlen, skipn_all in Ho. rewrite Hlen, firstn_all in Hw.
  repeat split; assumption.
Qed.

(** *** From [connWriter] to [connReader] *)

(** What [connReader] does with the bytes of lines that fit. *)
Lemma connReader_frames
    (msgs : list string) (ended : bool) (d : doneChan) (other : Interference) :
  Forall is_line msgs ->
  connReader (frames msgs) ended d other = reader_effects msgs ended d other.
Proof.
  intros Hlines. unfold connReader, reader_effects, scan_all, scan_from.
  rewrite (feed_frames msgs Hlines). cbn [buf_len NewScanner N.eqb fst].
  unfold received_as. rewrite !map_map.
  destruct ended; [reflexivity | rewrite app_nil_r; reflexivity].
Qed.

(** How a goroutine ends on [closeDone]. *)
Lemma ends_on_closeDone_cases (other : Interference) (d : doneChan) :
  (ends_on_closeDone other d = Panicked <->
   d = DoneOpen /\ other = ClosesBetween)
  /\ (ends_on_closeDone other d = Returned <->
      ~ (d = DoneOpen /\ other = ClosesBetween)).
Proof.
  destruct d, other; cbn; repeat split; intros;
    try reflexivity; try discriminate;
    intuition (try discriminate; try congruence).
Qed.

(** X7.  The lines in the queue of [connWriter], when they fit a Scanner
    and no write fails, come out of the [connReader] of the other peer as
    they went in, in order, the marker before each and a carriage return
    at its end dropped.  While the stream stays open [connReader] waits
    and raises nothing.  When the stream ends it calls [closeDone] once,
    after the last line; it then returns, except when [connWriter]
    closes [done] between the [select] and the [close] of that call:
    then it panics in the [close]. *)
Theorem queue_written_then_read
    (msgs : list string) (ts : list Time) (ended : bool)
    (d : doneChan) (other : Interference) :
  Forall is_line msgs ->
  List.length msgs <= queueCap ->
  List.length ts = List.length msgs ->
  connReader
    (written (ws_trace (connWriter (map good_write ts) (writer_on msgs))))
    ended d other
  = (map (fun l => SendIncoming (recvMarker +++ dropCR l)) msgs
       ++ (if ended then [CloseDone] else []),
     if ended then ends_on_closeDone other d else Running)
  /\ (ends_on_closeDone other d = Panicked <->
      d = DoneOpen /\ other = ClosesBetween)
  /\ (ends_on_closeDone other d = Returned <->
      ~ (d = DoneOpen /\ other = ClosesBetween)).
Proof.
  intros Hlines _ Hlen. split; [|apply ends_on_closeDone_cases].
  destruct (connWriter_good_writes ts (writer_on msgs) eq_refl Hlen)
    as [_ [_ Hw]].
  rewrite Hw. cbn [writer_on ws_trace ws_outgoing written String.append].
  apply connReader_frames, Hlines.
Qed.

Lemma queue_written_then_read_witness :
  connReader
    (written (ws_trace (connWriter (map good_write [1%Z; 2%Z])
                          (writer_on ["A: hi" +++ String CR ""; ""]))))
    true DoneOpen ClosesBetween
  = ([SendIncoming "RECV -> A: hi"; SendIncoming "RECV -> "; CloseDone],
     Panicked).
Proof.
  destruct (queue_written_then_read ["A: hi" +++ String CR ""; ""]
              [1%Z; 2%Z] true DoneOpen ClosesBetween) as [H _].
  - repeat constructor.
  - unfold queueCap. cbn. lia.
  - reflexivity.
  - exact H.
Defined.

(** *** From the keyboard of one peer to the queue of the other *)

Lemma push_then_write_all (msgs : list string) (w : Writer) :
  ws_status w = Running -> ws_outgoing w = [] ->
  written (ws_trace (fold_left push_then_write msgs w))
  = written (ws_trace w) +++ frames msgs.
Proof.
  revert w. induction msgs as [|m msgs IH]; intros w Hrun Hq.
  - cbn [fold_left frames]. rewrite append_nil_r. reflexivity.
  - cbn [fold_left frames]. unfold push_then_write at 2.
    rewrite Hq. cbn [chan_send List.length queueCap Nat.ltb Nat.leb app].
    set (w1 := {| ws_status := ws_status w; ws_done := ws_done w;
                  ws_outgoing := [m]; ws_trace := ws_trace w |}).
    destruct (connWriter_iter_writes_frame 0%Z w1 m [] Hrun eq_refl)
      as [w' [Hstep [Hrun' [Hq' Hwr]]]].
    cbn [connWriter]. rewrite Hstep.
    rewrite (IH w' Hrun' Hq'), Hwr, append_assoc. reflexivity.
Qed.

(** X8.  Whatever is typed at a peer, as long as each message still fits the
    Scanner of the other peer with the tag before it: what the
    [connReader] of the other peer sends to its [incoming] is, line for
    line and in order, what [stdinReader] sent to [outgoing], with the
    marker before it. *)
Theorem typed_input_received_in_order (sender : Config) (stdin : string) :
  has_byte LF (peerTag sender) = false ->
  Forall (fun msg => (len msg < MaxScanTokenSize)%N)
         (forwarded sender (fst (scan_all stdin))) ->
  typed_to_incoming sender stdin
  = map (String.append recvMarker) (forwarded sender (fst (scan_all stdin))).
Proof.
  intros Htag Hfit. unfold typed_to_incoming.
  assert (Hsent : sent_outgoing
                    (fst (stdinReader sender (fun _ => DoneOpen) stdin))
                  = forwarded sender (fst (scan_all stdin))).
  { unfold stdinReader. rewrite stdinReader_loop_open. cbn [fst].
    generalize (forwarded sender (fst (scan_all stdin))) as l.
    induction l as [|m l IHl]; [reflexivity|].
    cbn [map sent_outgoing flat_map app]. f_equal. exact IHl. }
  assert (Hlines : forall msg,
            In msg (forwarded sender (fst (scan_all stdin))) ->
            is_line msg /\ dropCR msg = msg).
  { intros msg Hin.
    assert (Hin' : In msg (sent_outgoing
                     (fst (stdinReader sender (fun _ => DoneOpen) stdin))))
      by (rewrite Hsent; exact Hin).
    destruct (sent_message_token sender _ stdin msg Hin')
      as [tok [Htok [Hne Hmsg]]].
    destruct (feed_tokens_lines stdin NewScanner tok NewScanner_ok Htok)
      as [Hnl _].
    split; [split|].
    - rewrite Hmsg. unfold no_newline.
      rewrite has_byte_append, Htag. cbn [orb].
      apply has_byte_TrimSpace, Hnl.
    - exact (proj1 (Forall_forall _ _) Hfit msg Hin).
    - apply dropCR_no_CR. rewrite Hmsg.
      rewrite last_char_append by exact Hne. apply TrimSpace_no_CR. }
  rewrite Hsent.
  rewrite (push_then_write_all _ new_writer eq_refl eq_refl).
  cbn [new_writer ws_trace written String.append].
  rewrite connReader_frames
    by (apply Forall_forall; intros msg Hin; apply Hlines, Hin).
  unfold reader_effects. cbn [fst]. rewrite app_nil_r.
  generalize (forwarded sender (fst (scan_all stdin))) as l, Hlines.
  induction l as [|m l IHl]; intros Hl; [reflexivity|].
  cbn [map sent_incoming flat_map app]. unfold received_as at 1.
  rewrite (proj2 (Hl m (or_introl eq_refl))). f_equal.
  apply IHl. intros msg Hin. apply Hl. right. exact Hin.
Qed.

Lemma typed_input_received_in_order_witness :
  typed_to_incoming peerA
    (" one" +++ String LF ("" +++ String LF ("two " +++ String LF "")))
  = ["RECV -> A: one"; "RECV -> A: two"].
Proof.
  apply (typed_input_received_in_order peerA
           (" one" +++ String LF ("" +++ String LF ("two " +++ String LF "")))).
  - reflexivity.
  - repeat constructor.
Defined.

(** *** The session loop *)

Lemma session_run_returned (cases : list SelectCase) (s : Session) :
  ss_status s <> Running -> session_run cases s = s.
Proof.
  intros H. induction cases as [|c cases IH]; [reflexivity|].
  cbn [session_run]. unfold main_iter.
  destruct (ss_status s); [contradiction H; reflexivity | exact IH | exact IH].
Qed.

(** Iterations whose [select] runs the message case print one line of
    [incoming] each. *)
Lemma session_run_messages (n : nat) (more : list SelectCase) (s : Session) :
  ss_status s = Running ->
  n <= List.length (ss_incoming s) ->
  session_run (repeat CaseMsg n ++ more) s
  = session_run more
      {| ss_status := Running; ss_done := ss_done s;
         ss_incoming := skipn n (ss_incoming s);
         ss_console := ss_console s ++ firstn n (ss_incoming s) |}.
Proof.
  revert s. induction n as [|n IH]; intros s Hrun Hn.
  - cbn [repeat app skipn firstn]. rewrite app_nil_r.
    destruct s; cbn in *; subst; reflexivity.
  - destruct (ss_incoming s) as [|msg q] eqn:Hq; [cbn in Hn; lia|].
    cbn [repeat app session_run]. unfold main_iter at 1.
    rewrite Hrun, Hq. cbn [chan_recv].
    rewrite IH by (cbn in *; first [reflexivity | lia]).
    cbn [ss_done ss_incoming ss_console skipn firstn].
    rewrite <- app_assoc. reflexivity.
Qed.

(** X9.  As long as its [select] runs the message case, the session loop
    prints one line of [incoming] at each iteration, oldest first, and
    goes on.  When its [select] then runs the shutdown case it prints
    the closing notice and returns: the lines still in [incoming] are
    never shown.  While the shutdown signal is not raised it does not
    return.  Whatever the cases its [select] runs, what it has printed
    is a beginning of [incoming], in order and each line once, followed
    by the closing notice exactly when it has returned, and by nothing
    after it. *)
Theorem session_prints_in_order
    (n : nat) (cases more : list SelectCase) (s : Session) :
  ss_status s = Running ->
  n <= List.length (ss_incoming s) ->
  session_run (repeat CaseMsg n) s
  = {| ss_status := Running; ss_done := ss_done s;
       ss_incoming := skipn n (ss_incoming s);
       ss_console := ss_console s ++ firstn n (ss_incoming s) |}
  /\ (ss_done s = DoneClosed ->
      session_run (repeat CaseMsg n ++ CaseDone :: more) s
      = {| ss_status := Returned; ss_done := DoneClosed;
           ss_incoming := skipn n (ss_incoming s);
           ss_console := ss_console s ++ firstn n (ss_incoming s)
                         ++ [closing_notice] |})
  /\ (ss_done s = DoneOpen -> ss_status (session_run cases s) = Running)
  /\ exists k,
       k <= List.length (ss_incoming s)
       /\ ss_incoming (session_run cases s) = skipn k (ss_incoming s)
       /\ ((ss_status (session_run cases s) = Running
            /\ ss_console (session_run cases s)
               = ss_console s ++ firstn k (ss_incoming s))
           \/ (ss_status (session_run cases s) = Returned
               /\ ss_done s = DoneClosed
               /\ ss_console (session_run cases s)
                  = ss_console s ++ firstn k (ss_incoming s)
                    ++ [closing_notice]
               /\ forall later,
                    session_run (cases ++ later) s = session_run cases s)).
Proof.
  intros Hrun Hn.
  assert (Hgen : forall cases s, ss_status s = Running ->
    exists k,
       k <= List.length (ss_incoming s)
       /\ ss_incoming (session_run cases s) = skipn k (ss_incoming s)
       /\ ((ss_status (session_run cases s) = Running
            /\ ss_console (session_run cases s)
               = ss_console s ++ firstn k (ss_incoming s))
           \/ (ss_status (session_run cases s) = Returned
               /\ ss_done s = DoneClosed
               /\ ss_console (session_run cases s)
                  = ss_console s ++ firstn k (ss_incoming s)
                    ++ [closing_notice]
               /\ forall later,
                    session_run (cases ++ later) s = session_run cases s))).
  { clear. intros cases.
    induction cases as [|c cases IH]; intros s Hrun.
    - exists 0. cbn [session_run skipn firstn]. rewrite app_nil_r.
      split; [lia | split; [reflexivity | left; split; [exact Hrun | reflexivity]]].
    - cbn [session_run app]. destruct (main_iter c s) as [s'|] eqn:E.
      + unfold main_iter in E. rewrite Hrun in E. destruct c.
        * destruct (ss_done s) eqn:Hd; cbn [done_ready] in E; [discriminate E|].
          inversion E; subst s'; clear E. exists 0. cbn [skipn firstn app].
          rewrite session_run_returned by (cbn; discriminate).
          cbn [ss_incoming ss_status ss_console].
          split; [lia | split; [reflexivity | right]].
          repeat split. intros later.
          rewrite session_run_returned by (cbn; discriminate). reflexivity.
        * destruct (ss_incoming s) as [|msg q] eqn:Hq; cbn [chan_recv] in E;
            [discriminate E|].
          inversion E; subst s'; clear E.
          set (s1 := {| ss_status := Running; ss_done := ss_done s;
                        ss_incoming := q; ss_console := ss_console s ++ [msg] |}).
          destruct (IH s1 eq_refl) as [k Hk]. exists (S k).
          cbn [ss_incoming ss_console ss_done s1] in Hk.
          cbn [List.length skipn firstn].
          destruct Hk as [Hle [Hq' [[Hr Hc] | [Hr [Hd [Hc Hmore]]]]]].
          -- split; [lia | split; [exact Hq' | left]].
             split; [exact Hr|]. rewrite Hc, <- app_assoc. reflexivity.
          -- split; [lia | split; [exact Hq' | right]].
             split; [exact Hr | split; [exact Hd | split; [|exact Hmore]]].
             rewrite Hc, <- app_assoc. reflexivity.
      + exact (IH s Hrun). }
  split; [|split; [|split]].
  - pose proof (session_run_messages n [] s Hrun Hn) as H.
    rewrite app_nil_r in H. exact H.
  - intros Hd. rewrite (session_run_messages n _ s Hrun Hn).
    cbn [session_run]. unfold main_iter.
    cbn [ss_status ss_done ss_incoming ss_console]. rewrite Hd.
    cbn [done_ready]. rewrite session_run_returned by (cbn; discriminate).
    rewrite <- app_assoc. reflexivity.
  - intros Hd. destruct (Hgen cases s Hrun) as [k [_ [_ [[Hr _] | [_ [Hc _]]]]]].
    + exact Hr.
    + rewrite Hd in Hc. discriminate Hc.
  - apply Hgen, Hrun.
Qed.

Lemma session_prints_in_order_witness :
  session_run [CaseMsg; CaseMsg; CaseDone; CaseMsg]
    {| ss_status := Running; ss_done := DoneClosed;
       ss_incoming := ["RECV -> B: 1"; "RECV -> B: 2"; "RECV -> B: 3"];
       ss_console := [] |}
  = {| ss_status := Returned; ss_done := DoneClosed;
       ss_incoming := ["RECV -> B: 3"];
       ss_console := ["RECV -> B: 1"; "RECV -> B: 2"; closing_notice] |}.
Proof.
  destruct (session_prints_in_order 2 [] [CaseMsg]
              {| ss_status := Running; ss_done := DoneClosed;
                 ss_incoming := ["RECV -> B: 1"; "RECV -> B: 2"; "RECV -> B: 3"];
                 ss_console := [] |} eq_refl) as [_ [H _]].
  - cbn. lia.
  - exact (H eq_refl).
Defined.

(** *** Backpressure *)

(** An iteration whose [select] runs the message case takes the oldest
    message out of the queue, whatever happens to the write. *)
Lemma connWriter_iter_takes
    (i : WriterInput) (w : Writer) (msg : string) (q : list string) :
  ws_status w = Running -> wi_case i = CaseMsg -> ws_outgoing w = msg :: q ->
  exists w', connWriter_iter i w = Some w' /\ ws_outgoing w' = q.
Proof.
  intros Hrun Hcase Hq. unfold connWriter_iter, writer_fail.
  rewrite Hrun, Hcase, Hq. cbn [chan_recv].
  destruct (closeDone_among (wi_other i) (ws_done w));
    (destruct (negb (is_nil (wi_write_err i)));
     [|destruct (negb (is_nil (wi_flush_err i)))]);
    eexists; split; reflexivity.
Qed.

(** X10.  [stdinReader] waits on a full [outgoing]; as soon as [connWriter]
    has taken the oldest message, the send goes through, and the
    message takes its place behind all those that were waiting. *)
Theorem full_queue_blocks_until_taken
    (cfg : Config) (p : Producer) (w : Writer) (msg : string) (i : WriterInput) :
  pr_pc p = InSend msg ->
  List.length (pr_outgoing p) = queueCap ->
  ws_status w = Running ->
  ws_outgoing w = pr_outgoing p ->
  wi_case i = CaseMsg ->
  producer_step cfg p = None
  /\ exists oldest rest w',
       pr_outgoing p = oldest :: rest
       /\ connWriter_iter i w = Some w'
       /\ ws_outgoing w' = rest
       /\ option_map pr_outgoing
            (producer_step cfg
               (producer_at (pr_pc p) (pr_scanner p) (pr_stdin p)
                            (ws_outgoing w') p))
          = Some (rest ++ [msg]).
Proof.
  intros Hpc Hfull Hrun Hq Hcase. split.
  - unfold producer_step, chan_send. rewrite Hpc, Hfull.
    rewrite Nat.ltb_irrefl. reflexivity.
  - destruct (pr_outgoing p) as [|oldest rest] eqn:Ep; [discriminate Hfull|].
    destruct (connWriter_iter_takes i w oldest rest Hrun Hcase Hq)
      as [w' [Hstep Hq']].
    exists oldest, rest, w'. split; [reflexivity|].
    split; [exact Hstep | split; [exact Hq'|]].
    rewrite Hq'. unfold producer_step, producer_at, chan_send.
    cbn [pr_pc pr_outgoing pr_scanner pr_stdin]. rewrite Hpc.
    cbn in Hfull. injection Hfull as Hfull.
    replace (List.length rest <? queueCap)%nat with true
      by (symmetry; apply Nat.ltb_lt; unfold queueCap in *; lia).
    reflexivity.
Qed.

Lemma full_queue_blocks_until_taken_witness :
  producer_step peerA waiting_for_room = None
  /\ exists oldest rest w',
       pr_outgoing waiting_for_room = oldest :: rest
       /\ connWriter_iter (good_write 0%Z)
            (writer_on (pr_outgoing waiting_for_room)) = Some w'
       /\ ws_outgoing w' = rest
       /\ option_map pr_outgoing
            (producer_step peerA
               (producer_at (pr_pc waiting_for_room)
                  (pr_scanner waiting_for_room) (pr_stdin waiting_for_room)
                  (ws_outgoing w') waiting_for_room))
          = Some (rest ++ ["A: late"]).
Proof.
  apply (full_queue_blocks_until_taken peerA waiting_for_room
           (writer_on (pr_outgoing waiting_for_room)) "A: late"
           (good_write 0%Z)); reflexivity.
Defined.

End RunsFacts.

(** ** A line typed among others, and the shutdown seen with lines queued *)

Module RelayFacts.

Import StringFacts BufioFacts TrimFacts strings bufio Pumps PumpFacts.
Import Pipeline PipelineFacts Runs RunsFacts.

(** *** From the keyboard of one peer to the queue of the other *)

(** The Scanner reads lines that fit one after the other, whatever comes
    after them. *)
Lemma feed_frames_then (good : list string) (tail : string) :
  Forall is_line good ->
  feed NewScanner (frames good +++ tail)
  = (map dropCR good ++ fst (feed NewScanner tail),
     snd (feed NewScanner tail)).
Proof.
  intros Hgood. revert tail.
  induction Hgood as [|l good [Hl Hlen] _ IH]; intros tail.
  - cbn [frames String.append map app].
    destruct (feed NewScanner tail); reflexivity.
  - cbn [frames map app]. unfold frame. rewrite !append_assoc.
    change (String LF "" +++ frames good +++ tail)
      with (String LF (frames good +++ tail)).
    rewrite feed_line
      by (first [exact Hl | change (buf_len NewScanner) with 0%N; lia]).
    rewrite IH. reflexivity.
Qed.

Lemma scan_all_frames_then (good : list string) (tail : string) :
  Forall is_line good ->
  fst (scan_all (frames good +++ tail))
  = map dropCR good ++ fst (scan_all tail).
Proof.
  intros Hgood. unfold scan_all, scan_from.
  rewrite (feed_frames_then good tail Hgood).
  destruct (feed NewScanner tail) as [ts [sc|]]; cbn [fst snd];
    [|reflexivity].
  destruct (buf_len sc =? 0)%N; cbn [fst];
    [reflexivity | rewrite app_assoc; reflexivity].
Qed.

Lemma forwarded_app (cfg : Config) (a b : list string) :
  forwarded cfg (a ++ b) = forwarded cfg a ++ forwarded cfg b.
Proof.
  unfold forwarded. rewrite map_app, filter_app, map_app. reflexivity.
Qed.

Lemma sent_outgoing_sends (msgs : list string) :
  sent_outgoing (map SendOutgoing msgs) = msgs.
Proof.
  induction msgs as [|m msgs IH]; [reflexivity|].
  cbn [map sent_outgoing flat_map app]. f_equal. exact IH.
Qed.

Lemma sent_incoming_sends (toks : list string) (tl : list Effect) :
  sent_incoming (map (fun t => SendIncoming (recvMarker +++ t)) toks ++ tl)
  = map (String.append recvMarker) toks ++ sent_incoming tl.
Proof.
  induction toks as [|t toks IH]; [reflexivity|].
  cbn [map sent_incoming flat_map app]. f_equal. exact IH.
Qed.

(** What reaches the [incoming] of the other peer is what its Scanner
    reads of the messages sent, written one after the other. *)
Lemma typed_to_incoming_scanned (sender : Config) (stdin : string) :
  typed_to_incoming sender stdin
  = map (String.append recvMarker)
        (fst (feed NewScanner
                (frames (forwarded sender (fst (scan_all stdin)))))).
Proof.
  unfold typed_to_incoming, stdinReader. rewrite stdinReader_loop_open.
  cbn [fst]. rewrite sent_outgoing_sends.
  rewrite (push_then_write_all _ new_writer eq_refl eq_refl).
  cbn [new_writer ws_trace written String.append].
  unfold connReader.
  destruct (feed NewScanner
              (frames (forwarded sender (fst (scan_all stdin)))))
    as [toks [sc|]]; cbn [fst].
  - rewrite <- (app_nil_r (map _ toks)), sent_incoming_sends.
    apply app_nil_r.
  - rewrite sent_incoming_sends. apply app_nil_r.
Qed.

(** The messages sent for lines that fit, with the tag before them, the
    Scanner of the other peer. *)
Lemma forwarded_lines (sender : Config) (ls : list string) :
  has_byte LF (peerTag sender) = false ->
  Forall (fun l => has_byte LF l = false
                   /\ (len l < MaxScanTokenSize)%N
                   /\ (len (peerTag sender +++ TrimSpace (dropCR l))
                       < MaxScanTokenSize)%N) ls ->
  Forall is_line (forwarded sender (map dropCR ls))
  /\ map dropCR (forwarded sender (map dropCR ls))
     = forwarded sender (map dropCR ls)
  /\ Forall is_line ls.
Proof.
  intros Htag H. induction H as [|l ls [Hnl [Hlen Hfit]] _ [IH1 [IH2 IH3]]].
  - repeat split; constructor.
  - unfold forwarded in *. cbn [map filter].
    destruct (String.eqb_spec (TrimSpace (dropCR l)) "") as [E | Hne];
      cbn [negb map].
    + split; [exact IH1|]. split; [exact IH2|].
      constructor; [split; assumption | exact IH3].
    + split; [|split].
      * constructor; [|exact IH1]. split; [|exact Hfit].
        unfold no_newline. rewrite has_byte_append, Htag. cbn [orb].
        apply has_byte_TrimSpace.
        destruct (has_byte LF (dropCR l)) eqn:E; [|reflexivity].
        apply has_byte_dropCR in E. congruence.
      * f_equal; [|exact IH2]. apply dropCR_no_CR.
        rewrite last_char_append by exact Hne. apply TrimSpace_no_CR.
      * constructor; [split; assumption | exact IH3].
Qed.

(** The lines typed at a peer whose tag holds no newline, up to one that
    is not empty once trimmed, when all of them fit. *)
Lemma typed_lines_relayed
    (sender : Config) (before : list string) (typed after : string) :
  has_byte LF (peerTag sender) = false ->
  Forall (fun l => has_byte LF l = false
                   /\ (len l < MaxScanTokenSize)%N
                   /\ (len (peerTag sender +++ TrimSpace (dropCR l))
                       < MaxScanTokenSize)%N) (before ++ [typed]) ->
  TrimSpace (dropCR typed) <> "" ->
  exists rest,
    typed_to_incoming sender (frames before +++ typed +++ String LF after)
    = map (fun l => recvMarker +++ peerTag sender +++ TrimSpace (dropCR l))
          (filter (fun l => negb (String.eqb (TrimSpace (dropCR l)) ""))
                  before)
      ++ [recvMarker +++ peerTag sender +++ TrimSpace (dropCR typed)]
      ++ rest
    /\ (after = "" -> rest = []).
Proof.
  intros Htag Hfit Hne.
  destruct (forwarded_lines sender (before ++ [typed]) Htag Hfit)
    as [Hmsgs [Hcr Hlines]].
  assert (Hstdin : frames before +++ typed +++ String LF after
                   = frames (before ++ [typed]) +++ after).
  { rewrite frames_app. cbn [frames]. unfold frame.
    rewrite append_nil_r, !append_assoc. reflexivity. }
  assert (Hfw : forwarded sender (map dropCR (before ++ [typed]))
                = forwarded sender (map dropCR before)
                  ++ [peerTag sender +++ TrimSpace (dropCR typed)]).
  { rewrite map_app, forwarded_app. f_equal.
    unfold forwarded. cbn [map filter].
    destruct (String.eqb_spec (TrimSpace (dropCR typed)) "") as [E | _];
      [contradiction | reflexivity]. }
  assert (Hmap : map (String.append recvMarker)
                     (forwarded sender (map dropCR before))
                 = map (fun l => recvMarker +++ peerTag sender
                                 +++ TrimSpace (dropCR l))
                       (filter (fun l => negb (String.eqb
                                                 (TrimSpace (dropCR l)) ""))
                               before)).
  { clear. unfold forwarded. induction before as [|l before IH];
      [reflexivity|].
    cbn [map filter].
    destruct (String.eqb (TrimSpace (dropCR l)) ""); cbn [negb map];
      [exact IH | f_equal; exact IH]. }
  exists (map (String.append recvMarker)
              (fst (feed NewScanner
                      (frames (forwarded sender (fst (scan_all after))))))).
  split.
  - rewrite typed_to_incoming_scanned, Hstdin.
    rewrite (scan_all_frames_then _ after Hlines), forwarded_app, frames_app.
    rewrite (feed_frames_then _ _ Hmsgs). cbn [fst].
    rewrite Hcr, Hfw, <- Hmap, !map_app, <- app_assoc. reflexivity.
  - intros ->. reflexivity.
Qed.

(** C3, amended.  When a line typed at peer A is not empty once trimmed,
    and it and every line typed before it are taken by the Scanner of
    [stdinReader] (fewer than 65536 bytes) and, trimmed and with the tag
    before them, still fit the Scanner of the [connReader] of peer B
    (fewer than 65536 bytes, the tag included), then the [incoming] of
    peer B is sent "RECV -> A: " followed by the trimmed line, after the
    lines received for those typed before it (the ones that are empty
    once trimmed left out) and before anything received for what is
    typed after it; a line typed at peer B reaches peer A in the same
    way with "RECV -> B: ". *)
Theorem typed_line_received_tagged
    (before : list string) (typed after : string) :
  Forall (fun l => has_byte LF l = false
                   /\ (len l < MaxScanTokenSize)%N
                   /\ (3 + len (TrimSpace (dropCR l)) < MaxScanTokenSize)%N)
         (before ++ [typed]) ->
  TrimSpace (dropCR typed) <> "" ->
  (exists rest,
     typed_to_incoming peerA (frames before +++ typed +++ String LF after)
     = map (fun l => "RECV -> A: " +++ TrimSpace (dropCR l))
           (filter (fun l => negb (String.eqb (TrimSpace (dropCR l)) ""))
                   before)
       ++ ["RECV -> A: " +++ TrimSpace (dropCR typed)] ++ rest
     /\ (after = "" -> rest = []))
  /\ (exists rest,
        typed_to_incoming peerB (frames before +++ typed +++ String LF after)
        = map (fun l => "RECV -> B: " +++ TrimSpace (dropCR l))
              (filter (fun l => negb (String.eqb (TrimSpace (dropCR l)) ""))
                      before)
          ++ ["RECV -> B: " +++ TrimSpace (dropCR typed)] ++ rest
        /\ (after = "" -> rest = [])).
Proof.
  intros Hfit Hne. split.
  - apply (typed_lines_relayed peerA); [reflexivity | | exact Hne].
    eapply Forall_impl; [|exact Hfit]. cbn beta.
    intros l [Hnl [Hlen Hl]]. split; [exact Hnl|]. split; [exact Hlen|].
    cbn [peerTag peerA]. rewrite len_append. exact Hl.
  - apply (typed_lines_relayed peerB); [reflexivity | | exact Hne].
    eapply Forall_impl; [|exact Hfit]. cbn beta.
    intros l [Hnl [Hlen Hl]]. split; [exact Hnl|]. split; [exact Hlen|].
    cbn [peerTag peerB]. rewrite len_append. exact Hl.
Qed.

Lemma typed_line_received_tagged_witness :
  typed_to_incoming peerA
    (frames ["first"; "   "; " second" +++ String CR ""]
     +++ "  hello " +++ String LF "")
  = ["RECV -> A: first"; "RECV -> A: second"; "RECV -> A: hello"]
  /\ typed_to_incoming peerB
       (frames ["first"; "   "; " second" +++ String CR ""]
        +++ "  hello " +++ String LF "")
     = ["RECV -> B: first"; "RECV -> B: second"; "RECV -> B: hello"].
Proof.
  destruct (typed_line_received_tagged
              ["first"; "   "; " second" +++ String CR ""] "  hello " "")
    as [[ra [Ha Hra]] [rb [Hb Hrb]]].
  - repeat (constructor; [repeat split; reflexivity|]). constructor.
  - discriminate.
  - rewrite (Hra eq_refl) in Ha. rewrite (Hrb eq_refl) in Hb.
    split; [exact Ha | exact Hb].
Defined.

(** The condition on the lines typed before cannot be left out: after a
    line of 65533 bytes, which peer A sends and the Scanner of peer B
    refuses, a line that fits is sent by peer A too, and nothing reaches
    the [incoming] of peer B. *)
Lemma later_line_is_lost_after_long_one :
  let long := str_repeat "a"%char (N.to_nat 65533) in
  sent_outgoing (fst (stdinReader peerA (fun _ => DoneOpen)
                        (frames [long; "hello"])))
  = ["A: " +++ long; "A: hello"]
  /\ typed_to_incoming peerA (frames [long; "hello"]) = [].
Proof.
  cbv zeta. split.
  - assert (H : forall l a b,
                match l with
                | [x; y] => (String.eqb x a && String.eqb y b)%bool
                | _ => false
                end = true -> l = [a; b]).
    { intros l a b. destruct l as [|x [|y [|z l]]]; try discriminate.
      intros H. apply andb_true_iff in H. destruct H as [Hx Hy].
      apply String.eqb_eq in Hx, Hy. subst. reflexivity. }
    apply H. vm_compute. reflexivity.
  - vm_compute. reflexivity.
Qed.

(** *** [connWriter] and the shutdown signal *)

(** C5, as stated, fails when lines are queued at the moment the signal
    is raised: the [select] of [connWriter] may run the message case as
    long as a line is queued, so that [connWriter] takes and sends the
    two lines queued, and only then returns on the signal. *)
Lemma connWriter_sends_after_shutdown :
  let w := {| ws_status := Running; ws_done := DoneClosed;
              ws_outgoing := ["A: one"; "A: two"]; ws_trace := [] |} in
  let w' := connWriter [good_write 1%Z; good_write 2%Z; done_case] w in
  ws_status w' = Returned
  /\ ws_outgoing w' = []
  /\ written (ws_trace w')
     = "A: one" +++ String LF ("A: two" +++ String LF "")
  /\ ws_outgoing w' <> ws_outgoing w
  /\ written (ws_trace w') <> written (ws_trace w).
Proof.
  cbv zeta. repeat split; try reflexivity; cbn; discriminate.
Qed.

(** C5, amended.  When the [select] of [connWriter] runs the case of
    the shutdown signal, [connWriter] returns at once: whatever
    [outgoing] holds at that moment stays in it, nothing more is
    written, and no later iteration takes place.  Once [done] is closed
    that case can be run, a line waiting in [outgoing] or not; but as
    long as a line is waiting the [select] can run the message case as
    well, and [connWriter] then takes the oldest line and writes it as
    before the signal.  So, before it returns on the signal,
    [connWriter] may send any number of the lines queued, oldest first;
    those it has not taken stay in [outgoing].  With an empty [outgoing]
    the case of the signal is the only one that can be run. *)
Theorem connWriter_shutdown_leaves_queue
    (ts : list Time) (i j : WriterInput) (later : list WriterInput)
    (w : Writer) :
  ws_status w = Running ->
  ws_done w = DoneClosed ->
  wi_case i = CaseDone ->
  List.length ts <= List.length (ws_outgoing w) ->
  (exists w',
     connWriter_iter i w = Some w'
     /\ ws_status w' = Returned
     /\ ws_outgoing w' = ws_outgoing w
     /\ ws_trace w' = ws_trace w
     /\ connWriter (i :: later) w = w')
  /\ (forall msg q t,
        ws_outgoing w = msg :: q ->
        connWriter_iter (good_write t) w
        = Some {| ws_status := Running; ws_done := DoneClosed;
                  ws_outgoing := q;
                  ws_trace :=
                    ws_trace w
                    ++ [SetWriteDeadline (time_Add t connWriteTimeout);
                        WriteString (msg +++ String LF ""); Flush] |})
  /\ (exists w',
        connWriter (map good_write ts ++ i :: later) w = w'
        /\ ws_status w' = Returned
        /\ ws_done w' = DoneClosed
        /\ ws_outgoing w' = skipn (List.length ts) (ws_outgoing w)
        /\ written (ws_trace w')
           = written (ws_trace w)
             +++ frames (firstn (List.length ts) (ws_outgoing w))
        /\ close_calls (ws_trace w') = close_calls (ws_trace w))
  /\ (ws_outgoing w = [] ->
      (exists w', connWriter_iter j w = Some w') -> wi_case j = CaseDone).
Proof.
  intros Hrun Hdone Hcase Hlen.
  assert (Hret : forall w0, ws_status w0 = Running -> ws_done w0 = DoneClosed ->
            connWriter (i :: later) w0
            = {| ws_status := Returned; ws_done := ws_done w0;
                 ws_outgoing := ws_outgoing w0; ws_trace := ws_trace w0 |}
            /\ connWriter_iter i w0
               = Some {| ws_status := Returned; ws_done := ws_done w0;
                         ws_outgoing := ws_outgoing w0;
                         ws_trace := ws_trace w0 |}).
  { intros w0 Hr Hd.
    assert (Hstep : connWriter_iter i w0
                    = Some {| ws_status := Returned; ws_done := ws_done w0;
                              ws_outgoing := ws_outgoing w0;
                              ws_trace := ws_trace w0 |}).
    { unfold connWriter_iter. rewrite Hr, Hcase, Hd. reflexivity. }
    split; [|exact Hstep].
    cbn [connWriter]. rewrite Hstep. apply connWriter_returned. reflexivity. }
  split; [|split; [|split]].
  - destruct (Hret w Hrun Hdone) as [Hall Hstep].
    eexists. split; [exact Hstep|]. repeat split. exact Hall.
  - intros msg q t Hq. unfold connWriter_iter. rewrite Hrun, Hq, Hdone.
    cbn [good_write wi_case chan_recv wi_write_err wi_flush_err is_nil negb].
    unfold frame. rewrite <- app_assoc. reflexivity.
  - destruct (connWriter_good_prefix ts (i :: later) w Hrun Hlen)
      as [wn [Heq [Hs [Hd [Ho [Hw Hc]]]]]].
    rewrite Hdone in Hd.
    destruct (Hret wn Hs Hd) as [Hall _].
    eexists. split; [reflexivity|]. rewrite Heq, Hall.
    cbn [ws_status ws_done ws_outgoing ws_trace].
    repeat split; assumption.
  - intros Hq [w' Hstep]. unfold connWriter_iter in Hstep.
    rewrite Hrun, Hq in Hstep.
    destruct (wi_case j); [reflexivity | discriminate Hstep].
Qed.

Lemma connWriter_shutdown_leaves_queue_witness :
  exists w',
    connWriter [good_write 1%Z; done_case; good_write 2%Z]
      {| ws_status := Running; ws_done := DoneClosed;
         ws_outgoing := ["A: one"; "A: two"]; ws_trace := [] |}
    = w'
    /\ ws_status w' = Returned
    /\ ws_done w' = DoneClosed
    /\ ws_outgoing w' = ["A: two"]
    /\ written (ws_trace w') = "A: one" +++ String LF ""
    /\ close_calls (ws_trace w') = 0.
Proof.
  exact (proj1 (proj2 (proj2
           (connWriter_shutdown_leaves_queue [1%Z] done_case done_case
              [good_write 2%Z]
              {| ws_status := Running; ws_done := DoneClosed;
                 ws_outgoing := ["A: one"; "A: two"]; ws_trace := [] |}
              eq_refl eq_refl eq_refl (le_S _ _ (le_n 1)))))).
Defined.

End RelayFacts.

(** ** The two raisers, whatever the schedule *)

Module RaceFacts.

Import Shutdown RaceStates.

(** The ways another goroutine can interfere with one call of
    [closeDone] are runs of the race between the two. *)
Lemma closeDone_among_is_race (other : Interference) :
  let st := race (schedule_of other) (both_calling DoneOpen) in
  match closeDone_among other DoneOpen with
  | Ok d => writer_pc st = Returned /\ done st = d
  | Panic _ => writer_pc st = Panicked
  end.
Proof. destruct other; cbn; auto. Qed.

Lemma closeDone_among_alone (d : doneChan) :
  closeDone_among NoOther d = closeDone d.
Proof. destruct d; reflexivity. Qed.


Lemma from_open_step (who : Raiser) (st : Race) :
  from_open st = true -> from_open (race_step who st) = true.
Proof.
  destruct st as [d wp rp].
  destruct who, d, wp, rp; cbn; intros H; first [exact H | reflexivity].
Qed.

Lemma from_open_race (schedule : list Raiser) (st : Race) :
  from_open st = true -> from_open (race schedule st) = true.
Proof.
  revert st. induction schedule as [|who rest IH]; intros st H; [exact H|].
  cbn [race]. apply IH, from_open_step, H.
Qed.

Lemma from_closed_step (who : Raiser) (st : Race) :
  from_closed st = true -> from_closed (race_step who st) = true.
Proof.
  destruct st as [d wp rp].
  destruct who, d, wp, rp; cbn; intros H; first [exact H | reflexivity].
Qed.

Lemma from_closed_race (schedule : list Raiser) (st : Race) :
  from_closed st = true -> from_closed (race schedule st) = true.
Proof.
  revert st. induction schedule as [|who rest IH]; intros st H; [exact H|].
  cbn [race]. apply IH, from_closed_step, H.
Qed.

(** X11.  However [connWriter] and [connReader] are scheduled when both call
    [closeDone] on an open [done]: the two never both panic; the one
    that panics does so after the other has closed [done] and returned;
    and as soon as either has finished, [done] is closed. *)
Theorem closeDone_race_outcomes (schedule : list Raiser) :
  let st := race schedule (both_calling DoneOpen) in
  (writer_pc st = Panicked ->
   reader_pc st = Returned /\ done st = DoneClosed)
  /\ (reader_pc st = Panicked ->
      writer_pc st = Returned /\ done st = DoneClosed)
  /\ (writer_pc st = Returned \/ reader_pc st = Returned ->
      done st = DoneClosed)
  /\ (done st = DoneClosed ->
      writer_pc st = Returned \/ reader_pc st = Returned).
Proof.
  cbv zeta.
  pose proof (from_open_race schedule (both_calling DoneOpen) eq_refl) as H.
  destruct (race schedule (both_calling DoneOpen)) as [d wp rp].
  destruct d, wp, rp; cbn in H; try discriminate H; cbn;
    repeat split; intros; intuition (auto; discriminate).
Qed.

Lemma closeDone_race_outcomes_witness :
  reader_pc (race [Reader; Writer; Reader] (both_calling DoneOpen))
  = Returned \/
  writer_pc (race [Reader; Writer; Reader] (both_calling DoneOpen))
  = Returned.
Proof.
  destruct (closeDone_race_outcomes [Reader; Writer; Reader])
    as [_ [_ [_ H]]].
  apply or_comm, H. reflexivity.
Defined.

(** X12.  No call of [closeDone] panics, and [done] stays closed, when the
    shutdown signal is raised already, or when one of the two callers
    has finished before the other one starts: whatever the schedule
    after that. *)
Theorem closeDone_safe_once_closed (schedule : list Raiser) (st : Race) :
  from_closed st = true ->
  panicked (race schedule st) = false
  /\ done (race schedule st) = DoneClosed.
Proof.
  intros H. pose proof (from_closed_race schedule st H) as Hr.
  destruct (race schedule st) as [d wp rp].
  destruct d, wp, rp; cbn in Hr; try discriminate Hr; split; reflexivity.
Qed.

Lemma closeDone_safe_once_closed_witness :
  panicked (race [Writer; Writer; Reader; Writer; Reader; Reader]
                 (both_calling DoneOpen)) = false
  /\ done (race [Writer; Writer; Reader; Writer; Reader; Reader]
                (both_calling DoneOpen)) = DoneClosed.
Proof.
  exact (closeDone_safe_once_closed [Reader; Writer; Reader; Reader]
           (race [Writer; Writer] (both_calling DoneOpen)) eq_refl).
Defined.

End RaceFacts.

(** ** One direction of a session: the queues and a line too long *)

Module TruncationFacts.

Import StringFacts BufioFacts bufio Pumps Pipeline PipelineFacts Truncation.

Lemma queues_bounded_step (a : Action) (s s' : State) :
  step a s = Some s' ->
  List.length (outgoing s) <= queueCap ->
  List.length (incoming s) <= queueCap ->
  List.length (outgoing s') <= queueCap
  /\ List.length (incoming s') <= queueCap.
Proof.
  intros Hstep Ho Hi. destruct a; cbn [step] in Hstep.
  - destruct (to_push s) as [|l rest]; [discriminate|].
    destruct (chan_send queueCap (outgoing s) l) as [q|] eqn:Eq; [|discriminate].
    apply chan_send_some in Eq. destruct Eq as [-> Hlt].
    inversion Hstep; subst s'. cbn. rewrite length_app. cbn. lia.
  - destruct (outgoing s) as [|msg q]; [discriminate|].
    cbn [chan_recv] in Hstep. inversion Hstep; subst s'. cbn in *. lia.
  - destruct (rd_token s); [discriminate|].
    destruct (rd_scanner s) as [sc|]; [|discriminate].
    destruct (wire s) as [|c rest]; [discriminate|].
    destruct (scan_byte sc c); inversion Hstep; subst s'; cbn; lia.
  - destruct (rd_token s) as [t|]; [|discriminate].
    destruct (chan_send queueCap (incoming s) (recvMarker +++ t)) as [q|] eqn:Eq;
      [|discriminate].
    apply chan_send_some in Eq. destruct Eq as [-> Hlt].
    inversion Hstep; subst s'. cbn. rewrite length_app. cbn. lia.
  - destruct (incoming s) as [|msg q]; [discriminate|].
    cbn [chan_recv] in Hstep. inversion Hstep; subst s'. cbn in *. lia.
Qed.

(** X13.  However many lines are to be pushed and however the goroutines take
    turns, neither queue ever holds more than 32 lines: on a full
    [outgoing] the producer cannot push, on a full [incoming]
    [connReader] cannot send, until a line is taken out. *)
Theorem queues_never_exceed_capacity
    (lines : list string) (sched : list Action) :
  List.length (outgoing (run sched (init lines))) <= 32
  /\ List.length (incoming (run sched (init lines))) <= 32
  /\ (List.length (outgoing (run sched (init lines))) = 32 ->
      step Push (run sched (init lines)) = None)
  /\ (List.length (incoming (run sched (init lines))) = 32 ->
      step Enqueue (run sched (init lines)) = None).
Proof.
  assert (H : forall s,
            List.length (outgoing s) <= queueCap ->
            List.length (incoming s) <= queueCap ->
            List.length (outgoing (run sched s)) <= queueCap
            /\ List.length (incoming (run sched s)) <= queueCap).
  { induction sched as [|a sched IH]; intros s Ho Hi; [split; assumption|].
    cbn [run]. destruct (step a s) as [s'|] eqn:E; [|apply IH; assumption].
    destruct (queues_bounded_step a s s' E Ho Hi). apply IH; assumption. }
  destruct (H (init lines)) as [Ho Hi]; [cbn; lia | cbn; lia |].
  change queueCap with 32 in Ho, Hi.
  split; [exact Ho | split; [exact Hi | split]].
  - intros Hfull. cbn [step]. destruct (to_push _); [reflexivity|].
    unfold chan_send. rewrite Hfull. reflexivity.
  - intros Hfull. cbn [step]. destruct (rd_token _); [|reflexivity].
    unfold chan_send. rewrite Hfull. reflexivity.
Qed.

Lemma queues_never_exceed_capacity_witness :
  step Push (run (repeat Push 40) (init (repeat "A: x" 40))) = None.
Proof.
  exact (proj1 (proj2 (proj2 (queues_never_exceed_capacity
                                (repeat "A: x" 40) (repeat Push 40))))
               eq_refl).
Defined.

(** *** A line that does not fit *)

Lemma truncated_init (good : list string) (long : string) (rest : list string) :
  Forall is_line good -> no_newline long ->
  (MaxScanTokenSize <= len long)%N ->
  truncated good (init (good ++ long :: rest)).
Proof.
  intros Hgood Hnl Hlong. unfold truncated.
  cbn [init rd_scanner]. exists (map dropCR good).
  unfold to_read, delivered, held.
  cbn [init wire outgoing to_push rd_token shown incoming app String.append].
  split.
  - rewrite frames_app.
    assert (H : forall tail,
              feed NewScanner (frames good +++ tail)
              = (map dropCR good ++ fst (feed NewScanner tail),
                 snd (feed NewScanner tail))).
    { clear Hnl Hlong. induction Hgood as [|l good [Hl Hlen] _ IH]; intros tail.
      - cbn [frames String.append map app].
        destruct (feed NewScanner tail); reflexivity.
      - cbn [frames map app]. unfold frame. rewrite !append_assoc.
        change (String LF "" +++ frames good +++ tail)
          with (String LF (frames good +++ tail)).
        rewrite feed_line
          by (first [exact Hl | change (buf_len NewScanner) with 0%N; lia]).
        rewrite IH. reflexivity. }
    rewrite H. cbn [frames]. unfold frame. rewrite append_assoc.
    rewrite feed_too_long by assumption. cbn [fst snd].
    rewrite app_nil_r. reflexivity.
  - unfold received_as. rewrite !map_map. reflexivity.
Qed.

Lemma truncated_step (good : list string) (a : Action) (s s' : State) :
  truncated good s -> step a s = Some s' -> truncated good s'.
Proof.
  unfold truncated, to_read, delivered, held.
  intros H Hstep. destruct a; cbn [step] in Hstep.
  - destruct (to_push s) as [|l rest] eqn:Ep; [discriminate|].
    destruct (chan_send queueCap (outgoing s) l) as [q|] eqn:Eq; [|discriminate].
    apply chan_send_some in Eq. destruct Eq as [-> _].
    inversion Hstep; subst s'; clear Hstep.
    cbn [wire outgoing to_push rd_scanner rd_token incoming shown].
    rewrite <- app_assoc. cbn [app]. exact H.
  - destruct (outgoing s) as [|msg q] eqn:Eo; [discriminate|].
    cbn [chan_recv] in Hstep. inversion Hstep; subst s'; clear Hstep.
    cbn [wire outgoing to_push rd_scanner rd_token incoming shown].
    destruct (rd_scanner s) as [sc|]; [|exact H].
    destruct H as [toks [Hfeed Hall]]. exists toks.
    split; [|exact Hall]. rewrite append_assoc. exact Hfeed.
  - destruct (rd_token s) as [t|] eqn:Et; [discriminate|].
    destruct (rd_scanner s) as [sc|]; [|discriminate].
    destruct (wire s) as [|c rest] eqn:Ew; [discriminate|].
    destruct H as [toks [Hfeed Hall]].
    change (String c rest +++ frames (outgoing s ++ to_push s))
      with (String c (rest +++ frames (outgoing s ++ to_push s))) in Hfeed.
    cbn [feed] in Hfeed.
    destruct (scan_byte sc c) as [sc1|t sc1|] eqn:Eb;
      inversion Hstep; subst s'; clear Hstep;
      cbn [wire outgoing to_push rd_scanner rd_token incoming shown].
    + exists toks. split; assumption.
    + destruct (feed sc1 (rest +++ frames (outgoing s ++ to_push s)))
        as [ts r] eqn:Ef.
      inversion Hfeed; subst toks r; clear Hfeed.
      exists ts. split; [reflexivity | exact Hall].
    + inversion Hfeed; subst toks. cbn [map app] in Hall.
      rewrite app_nil_r in Hall. split; [reflexivity | symmetry; exact Hall].
  - destruct (rd_token s) as [t|] eqn:Et; [|discriminate].
    destruct (chan_send queueCap (incoming s) (recvMarker +++ t)) as [q|] eqn:Eq;
      [|discriminate].
    apply chan_send_some in Eq. destruct Eq as [-> _].
    inversion Hstep; subst s'; clear Hstep.
    cbn [wire outgoing to_push rd_scanner rd_token incoming shown].
    destruct (rd_scanner s) as [sc|]; [|destruct H as [H _]; discriminate H].
    destruct H as [toks [Hfeed Hall]]. exists toks.
    split; [exact Hfeed|]. rewrite Hall. cbn [app].
    rewrite <- !app_assoc. reflexivity.
  - destruct (incoming s) as [|msg q] eqn:Ei; [discriminate|].
    cbn [chan_recv] in Hstep. inversion Hstep; subst s'; clear Hstep.
    cbn [wire outgoing to_push rd_scanner rd_token incoming shown].
    destruct (rd_scanner s) as [sc|].
    + destruct H as [toks [Hfeed Hall]]. exists toks.
      split; [exact Hfeed|]. rewrite Hall, <- !app_assoc. reflexivity.
    + destruct H as [Ht Hall]. split; [exact Ht|].
      rewrite <- Hall, <- app_assoc. reflexivity.
Qed.

Lemma truncated_run (good : list string) (sched : list Action) (s : State) :
  truncated good s -> truncated good (run sched s).
Proof.
  revert s. induction sched as [|a sched IH]; intros s H; [exact H|].
  cbn [run]. destruct (step a s) as [s'|] eqn:E.
  - apply IH. exact (truncated_step good a s s' H E).
  - apply IH, H.
Qed.

(** X14.  A line of 65536 bytes or more ends the session at the receiver.
    However the goroutines take turns, what has been sent to [incoming]
    is a beginning of the lines pushed before it; from any state [Scan]
    can come to fail, and when it has, all the lines before the long one
    have been sent to [incoming], and neither the long line nor any line
    pushed after it ever is. *)
Theorem long_line_truncates_session
    (good : list string) (long : string) (rest : list string)
    (sched : list Action) :
  Forall is_line good ->
  no_newline long ->
  (MaxScanTokenSize <= len long)%N ->
  (exists later,
     map received_as good
     = delivered (run sched (init (good ++ long :: rest))) ++ later)
  /\ (rd_scanner (run sched (init (good ++ long :: rest))) = None ->
      forall more,
        delivered (run (sched ++ more) (init (good ++ long :: rest)))
        = map received_as good)
  /\ (exists more,
        rd_scanner (run (sched ++ more) (init (good ++ long :: rest)))
        = None).
Proof.
  intros Hgood Hnl Hlong.
  pose proof (truncated_run good sched _
                (truncated_init good long rest Hgood Hnl Hlong)) as Ht.
  split; [|split].
  - unfold truncated in Ht.
    destruct (rd_scanner (run sched (init (good ++ long :: rest)))) as [sc|].
    + destruct Ht as [toks [_ Hall]]. eexists. exact Hall.
    + destruct Ht as [_ Hall]. exists []. rewrite app_nil_r.
      symmetry. exact Hall.
  - intros Hnone more. rewrite run_app.
    pose proof (truncated_run good more _ Ht) as Ht'.
    assert (Hstay : forall sch s, rd_scanner s = None ->
              rd_scanner (run sch s) = None).
    { induction sch as [|a sch IH]; intros s Hs; [exact Hs|].
      cbn [run]. destruct (step a s) as [s'|] eqn:E; [|apply IH, Hs].
      apply IH. destruct a; cbn [step] in E.
      - destruct (to_push s); [discriminate|].
        destruct (chan_send queueCap (outgoing s) s0); inversion E.
        exact Hs.
      - destruct (chan_recv (outgoing s)) as [[m q]|]; inversion E. exact Hs.
      - rewrite Hs in E. destruct (rd_token s); discriminate E.
      - destruct (rd_token s); [|discriminate].
        destruct (chan_send queueCap (incoming s) (recvMarker +++ s0));
          inversion E. exact Hs.
      - destruct (chan_recv (incoming s)) as [[m q]|]; inversion E. exact Hs. }
    unfold truncated in Ht'. rewrite (Hstay more _ Hnone) in Ht'.
    exact (proj2 Ht').
  - unfold truncated in Ht.
    destruct (rd_scanner (run sched (init (good ++ long :: rest))))
      as [sc|] eqn:Esc.
    + destruct Ht as [toks [Hfeed _]].
      destruct (doomed_shuts_down _ (run sched (init (good ++ long :: rest)))
                  (Nat.le_refl _)) as [more Hmore].
      * exists sc. split; [exact Esc|]. rewrite Hfeed. reflexivity.
      * exists more. rewrite run_app. exact Hmore.
    + exists []. rewrite app_nil_r. exact Esc.
Qed.

Lemma long_line_truncates_session_witness :
  exists later,
    map received_as ["A: ok"]
    = delivered
        (run [Push; Write; NetByte]
             (init (["A: ok"]
                    ++ str_repeat "a"%char (N.to_nat 65536) :: ["A: lost"])))
      ++ later.
Proof.
  apply (long_line_truncates_session ["A: ok"]
           (str_repeat "a"%char (N.to_nat 65536)) ["A: lost"]
           [Push; Write; NetByte]).
  - repeat constructor.
  - unfold no_newline. vm_compute. reflexivity.
  - rewrite len_str_repeat. vm_compute. discriminate.
Defined.

End TruncationFacts.
